(** * ts-randomstring: a shallow embedding of [characterSetHandler.ts] and
      [randomString.ts]

    JavaScript strings are modelled by [string] (every string the library
    builds is ASCII), numbers by [Z] (every number the library computes is an
    integer well inside the range IEEE doubles represent exactly), a [Buffer]
    by [list byte].  The platform's [crypto.randomBytes] is not part of the
    repository: it is an oracle, see [ByteSource]. *)

From Stdlib Require Import ZArith List String Ascii Bool Lia Permutation.
From Stdlib.Strings Require Import Byte.
Import ListNotations.

Local Open Scope string_scope.
Local Open Scope Z_scope.

(* ================================================================= *)
(** ** JavaScript string primitives used by the library *)

(** [s.length] *)
Definition str_length (s : string) : Z := Z.of_nat (String.length s).

(** [c.toUpperCase()] / [c.toLowerCase()] on one ASCII code unit. *)
Definition ascii_toUpperCase (c : ascii) : ascii :=
  let n := nat_of_ascii c in
  if ((97 <=? n) && (n <=? 122))%nat then ascii_of_nat (n - 32) else c.

Definition ascii_toLowerCase (c : ascii) : ascii :=
  let n := nat_of_ascii c in
  if ((65 <=? n) && (n <=? 90))%nat then ascii_of_nat (n + 32) else c.

Fixpoint str_map (f : ascii -> ascii) (s : string) : string :=
  match s with
  | EmptyString => EmptyString
  | String c r => String (f c) (str_map f r)
  end.

(** [s.toUpperCase()], [s.toLowerCase()] *)
Definition toUpperCase (s : string) : string := str_map ascii_toUpperCase s.
Definition toLowerCase (s : string) : string := str_map ascii_toLowerCase s.

(** [s.charAt(i)]: the one-character string at index [i], the empty string
    when [i] is out of range. *)
Definition charAt (s : string) (i : Z) : string :=
  if i <? 0 then EmptyString
  else match String.get (Z.to_nat i) s with
       | Some c => String c EmptyString
       | None => EmptyString
       end.

(** The characters of a string, for membership and distinctness. *)
Definition chars (s : string) : list ascii := list_ascii_of_string s.

Definition is_upper (c : ascii) : bool :=
  ((65 <=? nat_of_ascii c) && (nat_of_ascii c <=? 90))%nat.
Definition is_lower (c : ascii) : bool :=
  ((97 <=? nat_of_ascii c) && (nat_of_ascii c <=? 122))%nat.

(* ================================================================= *)
(** ** characterSetHandler.ts *)

Inductive CharacterSetType : Set :=
  | Alphanumeric | Alphabetic | Numeric | Hex | Binary | Octal.

Inductive Capitalisation : Set :=
  | Mixed | Uppercase | Lowercase.

(** [export { Capitalisation as Capitalization }]: one enum, two names. *)
Definition Capitalization : Set := Capitalisation.

Definition numbers : string := "0123456789".
Definition charsLower : string := "abcdefghijklmnopqrstuvwxyz".
Definition charsUpper : string := toUpperCase charsLower.

Definition getCharacterSet (charSetType : CharacterSetType)
    (capitalisation : Capitalisation) : string :=
  let charSet :=
    match charSetType with
    | Alphanumeric => numbers ++ charsLower ++ charsUpper
    | Alphabetic => charsLower ++ charsUpper
    | Numeric => numbers
    | Hex => numbers ++ "abcdef"
    | Binary => "01"
    | Octal => "01234567"
    end in
  match capitalisation with
  | Uppercase => toUpperCase charSet
  | Lowercase => toLowerCase charSet
  | Mixed => charSet
  end.

(** The composition table as the specification words it, with the pools
    written out as literals; compared with [getCharacterSet] below. *)
Definition spec_digits : string := "0123456789".
Definition spec_lower : string := "abcdefghijklmnopqrstuvwxyz".
Definition spec_upper : string := "ABCDEFGHIJKLMNOPQRSTUVWXYZ".

Definition spec_compose (t : CharacterSetType) : string :=
  match t with
  | Alphanumeric => spec_digits ++ spec_lower ++ spec_upper
  | Alphabetic => spec_lower ++ spec_upper
  | Numeric => spec_digits
  | Hex => spec_digits ++ "abcdef"
  | Binary => "01"
  | Octal => "01234567"
  end.

Definition spec_resolve (t : CharacterSetType) (c : Capitalisation) : string :=
  match c with
  | Mixed => spec_compose t
  | Uppercase => toUpperCase (spec_compose t)
  | Lowercase => toLowerCase (spec_compose t)
  end.

(** Does the case of [ch] agree with the requested style? *)
Definition case_matches (c : Capitalisation) (ch : ascii) : bool :=
  match c with
  | Mixed => true
  | Uppercase => negb (is_lower ch)
  | Lowercase => negb (is_upper ch)
  end.

Fixpoint distinct (l : list ascii) : bool :=
  match l with
  | [] => true
  | c :: r => negb (existsb (Ascii.eqb c) r) && distinct r
  end.

(* ================================================================= *)
(** ** The platform's byte source

    [crypto.randomBytes] belongs to Node, not to the repository.  It is
    modelled as an oracle that is fixed before the run: [tape] holds the
    bytes it will hand out, in order; [failure i] says whether the request
    number [i] (counted from 0 over the oracle's life) fails and with which
    error.  [cursor] and [requested] are the oracle's state: the position in
    the tape and the sizes of the requests received so far. *)

Record Error : Set := { name : string; message : string }.

(** [Error.prototype.toString], which a template literal applies. *)
Definition Error_toString (e : Error) : string :=
  if (name e =? "")%string then message e
  else if (message e =? "")%string then name e
  else name e ++ ": " ++ message e.

Definition Buffer : Set := list byte.

(** [buffer.readUInt8(i)] on the byte found at index [i]. *)
Definition readUInt8 (b : byte) : Z := Z.of_N (Byte.to_N b).

Record ByteSource : Type := {
  tape : nat -> byte;
  failure : nat -> option Error;
  cursor : nat;
  requested : list Z
}.

(** How a JavaScript call ends: it returns a value, throws, or never
    returns (the model's fuel ran out). *)
Inductive completion (A : Type) : Type :=
  | Returns (v : A)
  | Throws (e : Error)
  | Diverges.
Arguments Returns {A} v.
Arguments Throws {A} e.
Arguments Diverges {A}.

Definition log_request (size : Z) (src : ByteSource) : ByteSource :=
  {| tape := tape src; failure := failure src;
     cursor := cursor src; requested := requested src ++ [size] |}.

Definition advance (n : nat) (src : ByteSource) : ByteSource :=
  {| tape := tape src; failure := failure src;
     cursor := (cursor src + n)%nat; requested := requested src |}.

(** The bytes at tape positions [from, from + n). *)
Definition window (src : ByteSource) (from n : nat) : Buffer :=
  map (tape src) (seq from n).

(** What a request to the platform gives: the bytes, or an error. *)
Inductive drawn : Set :=
  | Bytes (buffer : Buffer)
  | Failed (e : Error).

(** [randomBytes(size)], the blocking form: [size] fresh bytes returned, or
    an error thrown. *)
Definition randomBytes (size : Z) (src : ByteSource) : drawn * ByteSource :=
  match failure src (List.length (requested src)) with
  | Some e => (Failed e, log_request size src)
  | None =>
      (Bytes (window src (cursor src) (Z.to_nat size)),
       advance (Z.to_nat size) (log_request size src))
  end.

(** [randomBytes(size, cb)], the callback form: the arguments [(error,
    buffer)] that the platform passes to [cb] when the request settles. *)
Definition randomBytesAsync (size : Z) (src : ByteSource)
  : (option Error * option Buffer) * ByteSource :=
  match randomBytes size src with
  | (Bytes buffer, src') => ((None, Some buffer), src')
  | (Failed e, src') => ((Some e, None), src')
  end.

(* ================================================================= *)
(** ** randomString.ts *)

Module RandomStringOptions.
(** Both declarations of the interface, merged: every field is optional. *)
Record t : Set := {
  length : option Z;
  charSetType : option CharacterSetType;
  capitalisation : option Capitalisation;
  capitalization : option Capitalization
}.
(** [{}] *)
Definition empty : t :=
  {| length := None; charSetType := None;
     capitalisation := None; capitalization := None |}.
End RandomStringOptions.

Module GeneratedStringState.
Record t : Set := {
  generated : string;
  charSet : string;
  length : Z;
  maxByte : Z
}.
(** [state.generated += s] *)
Definition append_generated (state : t) (s : string) : t :=
  {| generated := generated state ++ s; charSet := charSet state;
     length := length state; maxByte := maxByte state |}.
End GeneratedStringState.

(** [options?.field] and [a ?? b] *)
Definition optional_chain {O A : Type} (options : option O)
    (field : O -> option A) : option A :=
  match options with
  | Some o => field o
  | None => None
  end.

Definition nullish {A : Type} (a : option A) (b : A) : A :=
  match a with
  | Some v => v
  | None => b
  end.

Notation "options ?. field" := (optional_chain options field)
  (at level 20, left associativity, only parsing).
Notation "a ?? b" := (nullish a b) (at level 45, left associativity).

Definition parseOptions (options : option RandomStringOptions.t)
  : Z * CharacterSetType * Capitalisation :=
  (options ?. RandomStringOptions.length ?? 32,
   options ?. RandomStringOptions.charSetType ?? Alphanumeric,
   options ?. RandomStringOptions.capitalisation ?? Mixed).

(** [256 - (256 % length)]; JavaScript's [%] truncates, as [Z.rem] does. *)
Definition getMaxByte (length : Z) : Z := 256 - Z.rem 256 length.

(** [Math.ceil(a / b)] for integers [a] and [b > 0]. *)
Definition Math_ceil_div (a b : Z) : Z := - ((- a) / b).

(** [getRandomBytesSafe]: the thrown error becomes the returned value. *)
Definition getRandomBytesSafe (length : Z) (src : ByteSource)
  : (Buffer + Error) * ByteSource :=
  match randomBytes length src with
  | (Bytes buffer, src') => (inl buffer, src')
  | (Failed error, src') => (inr error, src')
  end.

(** The [for] loop of [generateString], from index [i] on; [buffer] is the
    part of the buffer from [i].  The loop mutates [state]; the mutated
    state is the result. *)
Fixpoint generateString_for (buffer : Buffer) (state : GeneratedStringState.t)
  : GeneratedStringState.t :=
  match buffer with
  | [] => state
  | b :: rest =>
      if str_length (GeneratedStringState.generated state)
           <? GeneratedStringState.length state
      then
        let randomByte := readUInt8 b in
        generateString_for rest
          (if randomByte <? GeneratedStringState.maxByte state
           then GeneratedStringState.append_generated state
                  (charAt (GeneratedStringState.charSet state)
                     (Z.rem randomByte
                        (str_length (GeneratedStringState.charSet state))))
           else state)
      else state
  end.

(** [generateString(buffer, state)]: the returned string and the state
    object as the call leaves it. *)
Definition generateString (buffer : Buffer) (state : GeneratedStringState.t)
  : string * GeneratedStringState.t :=
  let state' := generateString_for buffer state in
  (GeneratedStringState.generated state', state').

(** The [while] loop of [generate]; one unit of [fuel] per iteration. *)
Fixpoint generate_while (fuel : nat) (length : Z) (charSet : string)
    (generated : string) (src : ByteSource) : completion string * ByteSource :=
  if str_length generated <? length then
    match fuel with
    | O => (Diverges, src)
    | S fuel' =>
        let maxByte := getMaxByte (str_length charSet) in
        let (buffer, src') :=
          getRandomBytesSafe (Math_ceil_div (length * 256) maxByte) src in
        match buffer with
        | inr error =>
            (Returns ("getRandomBytesSafe internal error :: "
                        ++ Error_toString error), src')
        | inl buffer =>
            let state :=
              {| GeneratedStringState.generated := generated;
                 GeneratedStringState.charSet := charSet;
                 GeneratedStringState.length := length;
                 GeneratedStringState.maxByte := maxByte |} in
            generate_while fuel' length charSet
              (fst (generateString buffer state)) src'
        end
    end
  else (Returns generated, src).

Definition generate (fuel : nat) (options : option RandomStringOptions.t)
    (src : ByteSource) : completion string * ByteSource :=
  let '(length, charSetType, capitalisation) := parseOptions options in
  let charSet := getCharacterSet charSetType capitalisation in
  generate_while fuel length charSet "" src.

(** [generateRandomString]: a fresh instance, then [generate]. *)
Definition generateRandomString (fuel : nat)
    (options : option RandomStringOptions.t) (src : ByteSource)
  : completion string * ByteSource :=
  generate fuel options src.

(** *** The callback variant

    [generateStringAsync] reads an identifier [length] that neither the
    method nor the module binds, so it denotes the property [length] of the
    global object: [global_length] is [None] where the global object has no
    such property (Node), and [Some n] where it has (a browser-like global,
    whose [length] counts frames). *)

Definition ReferenceError_length : Error :=
  {| name := "ReferenceError"; message := "length is not defined" |}.

(** Reading [buffer.length] when [buffer] is [undefined]. *)
Definition TypeError_undefined_buffer : Error :=
  {| name := "TypeError";
     message := "Cannot read properties of undefined (reading 'length')" |}.

(** One invocation of the caller's callback: [(error, generated)]. *)
Definition CallbackCall : Set := (option Error * option string)%type.

(** What a call of [generateAsync] leads to: the invocations of the
    caller's callback, in order, and how the last piece of code that ran
    ended ([Throws] is an exception nobody catches). *)
Record AsyncRun : Type := {
  calls : list CallbackCall;
  ending : completion unit
}.

Definition after_calls (cs : list CallbackCall) (r : AsyncRun) : AsyncRun :=
  {| calls := cs ++ calls r; ending := ending r |}.

(** One unit of [fuel] per request that settles. *)
Fixpoint generateStringAsync (fuel : nat) (global_length : option Z)
    (state : GeneratedStringState.t) (src : ByteSource)
  : AsyncRun * ByteSource :=
  match global_length with
  | None => ({| calls := []; ending := Throws ReferenceError_length |}, src)
  | Some length =>
      match fuel with
      | O => ({| calls := []; ending := Diverges |}, src)
      | S fuel' =>
          let '((error, buffer), src') := randomBytesAsync length src in
          let reported : list CallbackCall :=
            match error with
            | Some e => [(Some e, None)]
            | None => []
            end in
          match buffer with
          | None =>
              ({| calls := reported;
                  ending := Throws TypeError_undefined_buffer |}, src')
          | Some buffer =>
              let (newGenerated, state') := generateString buffer state in
              if str_length newGenerated <? length then
                let (r, src'') :=
                  generateStringAsync fuel' global_length state' src' in
                (after_calls reported r, src'')
              else
                ({| calls := reported ++ [(None, Some newGenerated)];
                    ending := Returns tt |}, src')
          end
      end
  end.

Definition generateAsync (fuel : nat) (global_length : option Z)
    (options : option RandomStringOptions.t) (src : ByteSource)
  : AsyncRun * ByteSource :=
  let '(length, charSetType, capitalisation) := parseOptions options in
  let charSet := getCharacterSet charSetType capitalisation in
  let state :=
    {| GeneratedStringState.generated := "";
       GeneratedStringState.charSet := charSet;
       GeneratedStringState.length := length;
       GeneratedStringState.maxByte := getMaxByte (str_length charSet) |} in
  generateStringAsync fuel global_length state src.

(** [generateRandomStringAsync]: a fresh instance, then [generateAsync]. *)
Definition generateRandomStringAsync (fuel : nat) (global_length : option Z)
    (options : option RandomStringOptions.t) (src : ByteSource)
  : AsyncRun * ByteSource :=
  generateAsync fuel global_length options src.

(* ================================================================= *)
(** ** The refill loop as the specification words it

    Steps 3 and 6 of the specification size every draw by the remaining
    deficit, [ceil (remainingLength * 256 / maxByte)].  This second loop
    follows those words; it is compared with [generate_while] below. *)

Fixpoint spec_refill (fuel : nat) (length : Z) (charSet : string)
    (generated : string) (src : ByteSource) : completion string * ByteSource :=
  if str_length generated <? length then
    match fuel with
    | O => (Diverges, src)
    | S fuel' =>
        let maxByte := getMaxByte (str_length charSet) in
        let remainingLength := length - str_length generated in
        let (buffer, src') :=
          getRandomBytesSafe (Math_ceil_div (remainingLength * 256) maxByte)
            src in
        match buffer with
        | inr error => (Throws error, src')
        | inl buffer =>
            let state :=
              {| GeneratedStringState.generated := generated;
                 GeneratedStringState.charSet := charSet;
                 GeneratedStringState.length := length;
                 GeneratedStringState.maxByte := maxByte |} in
            spec_refill fuel' length charSet
              (fst (generateString buffer state)) src'
        end
    end
  else (Returns generated, src).

Definition spec_generate (fuel : nat) (options : option RandomStringOptions.t)
    (src : ByteSource) : completion string * ByteSource :=
  let '(length, charSetType, capitalisation) := parseOptions options in
  spec_refill fuel length (getCharacterSet charSetType capitalisation) "" src.

(* ================================================================= *)
(** ** Concrete byte sources and requests, for running the model *)

(** No request has been made yet; the tape repeats [bytes], then [x00]. *)
Definition source_of (bytes : list byte) (failure : nat -> option Error)
  : ByteSource :=
  {| tape := fun i => nth i bytes x00; failure := failure;
     cursor := 0%nat; requested := [] |}.

Definition never_fails : nat -> option Error := fun _ => None.

Definition entropy_unavailable : Error :=
  {| name := "Error"; message := "entropy unavailable" |}.

(** Fails at request number [r], and only there. *)
Definition fails_at (r : nat) : nat -> option Error :=
  fun i => if Nat.eqb i r then Some entropy_unavailable else None.

Definition with_length (n : Z) (t : CharacterSetType)
  : option RandomStringOptions.t :=
  Some {| RandomStringOptions.length := Some n;
          RandomStringOptions.charSetType := Some t;
          RandomStringOptions.capitalisation := None;
          RandomStringOptions.capitalization := None |}.

(* ================================================================= *)
(** ** Vocabulary of the statements *)

(** The length and the alphabet a request asks for. *)
Definition requested_length (options : option RandomStringOptions.t) : Z :=
  fst (fst (parseOptions options)).

Definition resolved_alphabet (options : option RandomStringOptions.t)
  : string :=
  getCharacterSet (snd (fst (parseOptions options))) (snd (parseOptions options)).

(** The size of every draw of [generate]. *)
Definition draw_size (options : option RandomStringOptions.t) : Z :=
  Math_ceil_div (requested_length options * 256)
    (getMaxByte (str_length (resolved_alphabet options))).

(** The first [n] characters of [s]. *)
Fixpoint str_take (n : nat) (s : string) : string :=
  match n, s with
  | S m, String c r => String c (str_take m r)
  | _, _ => EmptyString
  end.

(** Rejection sampling as the specification words it (step 5): bytes below
    [maxByte] yield the alphabet character at index [byte mod k], the other
    bytes yield nothing. *)
Fixpoint sample (charSet : string) (maxByte : Z) (bytes : Buffer) : string :=
  match bytes with
  | [] => EmptyString
  | b :: rest =>
      if readUInt8 b <? maxByte
      then charAt charSet (readUInt8 b mod str_length charSet)
             ++ sample charSet maxByte rest
      else sample charSet maxByte rest
  end.

(** No request to the source ever fails. *)
Definition reliable (src : ByteSource) : Prop :=
  forall r, failure src r = None.

(** Every request made while the source went from [src] to [src']
    succeeded. *)
Definition succeeded (src src' : ByteSource) : Prop :=
  forall r,
    (List.length (requested src) <= r < List.length (requested src'))%nat ->
    failure src r = None.

(** Every run of [n] bytes that the source hands out from its cursor on
    holds a byte below [maxByte]. *)
Definition productive (maxByte : Z) (n : nat) (src : ByteSource) : Prop :=
  forall i, exists j, (j < n)%nat /\
    readUInt8 (tape src (cursor src + i * n + j)%nat) < maxByte.

(** The claim that every draw is sized by the remaining deficit, as a
    property of one run. *)
Definition draws_by_deficit (fuel : nat)
    (options : option RandomStringOptions.t) (src : ByteSource) : Prop :=
  requested (snd (generate fuel options src))
  = requested (snd (spec_generate fuel options src)).

(** The claim that a failure of the source leaves [generate] through the
    error channel, as a property of one run. *)
Definition failure_propagates (fuel : nat)
    (options : option RandomStringOptions.t) (src : ByteSource) : Prop :=
  forall r e,
    (List.length (requested src) <= r
       < List.length (requested (snd (generate fuel options src))))%nat ->
    failure src r = Some e ->
    fst (generate fuel options src) = Throws e.

(** The two spellings of the capitalisation option. *)
Definition with_capitalisation (X : Capitalisation)
    (o : RandomStringOptions.t) : RandomStringOptions.t :=
  {| RandomStringOptions.length := RandomStringOptions.length o;
     RandomStringOptions.charSetType := RandomStringOptions.charSetType o;
     RandomStringOptions.capitalisation := Some X;
     RandomStringOptions.capitalization := None |}.

Definition with_capitalization (X : Capitalization)
    (o : RandomStringOptions.t) : RandomStringOptions.t :=
  {| RandomStringOptions.length := RandomStringOptions.length o;
     RandomStringOptions.charSetType := RandomStringOptions.charSetType o;
     RandomStringOptions.capitalisation := None;
     RandomStringOptions.capitalization := Some X |}.

(* ================================================================= *)
(** ** Vocabulary of the further properties *)

(** The 256 values a byte can take, as numbers and as bytes; the 256
    characters. *)
Definition byte_values : list Z := map Z.of_nat (seq 0 256).

Definition byte_of_nat (n : nat) : byte :=
  match Byte.of_nat n with
  | Some b => b
  | None => x00
  end.

Definition all_bytes : list byte := map byte_of_nat (seq 0 256).
Definition all_ascii : list ascii := map ascii_of_nat (seq 0 256).

(** The byte values that the sampling loop turns into index [i] of an
    alphabet of [k] characters: those it accepts ([b < maxByte]) and whose
    remainder [b % k] is [i]. *)
Definition bytes_yielding (k i : Z) : list Z :=
  filter (fun b => (b <? getMaxByte k) && (Z.rem b k =? i)) byte_values.

(** What [generateString] makes of the one-byte buffer [b] when nothing has
    been generated and one character is wanted. *)
Definition char_of_byte (charSet : string) (b : byte) : string :=
  fst (generateString [b]
         {| GeneratedStringState.generated := "";
            GeneratedStringState.charSet := charSet;
            GeneratedStringState.length := 1;
            GeneratedStringState.maxByte := getMaxByte (str_length charSet) |}).

(** The bytes that give the string [s] that way. *)
Definition bytes_giving (charSet : string) (s : string) : list byte :=
  filter (fun b => (char_of_byte charSet b =? s)%string) all_bytes.

(** How many times [ch] occurs in [s]. *)
Definition occurrences (ch : ascii) (s : string) : nat :=
  List.length (filter (Ascii.eqb ch) (chars s)).

Definition is_digit (c : ascii) : bool :=
  ((48 <=? nat_of_ascii c) && (nat_of_ascii c <=? 57))%nat.

(** The sizes that the platform's [randomBytes] accepts; for any other
    size it throws before it draws anything. *)
Definition valid_size (n : Z) : Prop := 0 <= n <= 2147483647.

(** The text that [generate] returns for the error [e]. *)
Definition error_text (e : Error) : string :=
  "getRandomBytesSafe internal error :: " ++ Error_toString e.

(* ================================================================= *)
(** * Properties *)

(** ** Strings *)

Lemma length_append (a b : string) :
  String.length (a ++ b) = (String.length a + String.length b)%nat.
Proof. induction a as [|c a IH]; simpl; [reflexivity | now rewrite IH]. Qed.

Lemma str_length_append (a b : string) :
  str_length (a ++ b) = str_length a + str_length b.
Proof. unfold str_length. rewrite length_append. lia. Qed.

Lemma append_nil_r (a : string) : a ++ "" = a.
Proof. induction a as [|c a IH]; simpl; [reflexivity | now rewrite IH]. Qed.

Lemma append_assoc (a b c : string) : (a ++ b) ++ c = a ++ (b ++ c).
Proof. induction a as [|x a IH]; simpl; [reflexivity | now rewrite IH]. Qed.

Lemma chars_append (a b : string) : chars (a ++ b) = (chars a ++ chars b)%list.
Proof. induction a as [|c a IH]; simpl; [reflexivity | now rewrite IH]. Qed.

Lemma get_in (s : string) (n : nat) (c : ascii) :
  String.get n s = Some c -> In c (chars s).
Proof.
  revert n. induction s as [|x s IH]; intros n; simpl; [discriminate|].
  destruct n as [|n].
  - intros [= ->]. now left.
  - intros H. right. eauto.
Qed.

Lemma charAt_in (s : string) (i : Z) (c : ascii) :
  In c (chars (charAt s i)) -> In c (chars s).
Proof.
  unfold charAt. destruct (i <? 0); simpl; [tauto|].
  destruct (String.get (Z.to_nat i) s) eqn:G; simpl; [|tauto].
  intros [<- | []]. eapply get_in; eauto.
Qed.

Lemma charAt_length_le (s : string) (i : Z) :
  (String.length (charAt s i) <= 1)%nat.
Proof.
  unfold charAt. destruct (i <? 0); simpl; [lia|].
  destruct (String.get (Z.to_nat i) s); simpl; lia.
Qed.

Lemma get_some (s : string) (n : nat) :
  (n < String.length s)%nat -> exists c, String.get n s = Some c.
Proof.
  revert n. induction s as [|x s IH]; intros n; simpl; [lia|].
  destruct n as [|n]; [eauto|]. intros H. apply IH. lia.
Qed.

Lemma charAt_length_in_range (s : string) (i : Z) :
  0 <= i < str_length s -> String.length (charAt s i) = 1%nat.
Proof.
  unfold charAt, str_length. intros H.
  destruct (Z.ltb_spec i 0); [lia|].
  destruct (get_some s (Z.to_nat i)) as [c ->]; [lia | reflexivity].
Qed.

Lemma str_take_nil (n : nat) : str_take n "" = "".
Proof. now destruct n. Qed.

Lemma str_take_all (n : nat) (s : string) :
  (String.length s <= n)%nat -> str_take n s = s.
Proof.
  revert n. induction s as [|c s IH]; intros n H; [apply str_take_nil|].
  destruct n as [|n]; simpl in *; [lia|]. rewrite IH; [reflexivity | lia].
Qed.

Lemma str_take_length (n : nat) (s : string) :
  String.length (str_take n s) = Nat.min n (String.length s).
Proof.
  revert s. induction n as [|n IH]; intros [|c s]; simpl; auto.
Qed.

Lemma str_take_append (n : nat) (a b : string) :
  str_take n (a ++ b)
  = str_take n a ++ str_take (n - String.length (str_take n a)) b.
Proof.
  revert n. induction a as [|c a IH]; intros n; simpl.
  - rewrite str_take_nil. simpl. now rewrite Nat.sub_0_r.
  - destruct n as [|n]; simpl; [reflexivity|]. now rewrite IH.
Qed.

Lemma str_take_in (n : nat) (s : string) (c : ascii) :
  In c (chars (str_take n s)) -> In c (chars s).
Proof.
  revert s. induction n as [|n IH]; intros [|x s]; simpl; try tauto.
  intros [H | H]; [now left | right; auto].
Qed.

(** ** The character sets *)

Lemma distinct_of_NoDup (l : list ascii) : NoDup l -> distinct l = true.
Proof.
  induction 1 as [|c l Hnotin _ IH]; simpl; [reflexivity|].
  rewrite IH, andb_true_r. apply negb_true_iff.
  destruct (existsb (Ascii.eqb c) l) eqn:E; [|reflexivity].
  apply existsb_exists in E. destruct E as [x [Hx Heq]].
  apply Ascii.eqb_eq in Heq. subst x. contradiction.
Qed.

Lemma NoDup_of_distinct (l : list ascii) : distinct l = true -> NoDup l.
Proof.
  induction l as [|c l IH]; simpl; [constructor|].
  intros H. apply andb_true_iff in H. destruct H as [H1 H2].
  constructor; [|auto].
  intros Hin. apply negb_true_iff in H1.
  assert (existsb (Ascii.eqb c) l = true); [|congruence].
  apply existsb_exists. exists c. split; [assumption | apply Ascii.eqb_refl].
Qed.

(** What does hold of every resolved character set: between 2 and 62
    characters, each in the requested case. *)
Lemma getCharacterSet_size_and_case (t : CharacterSetType) (c : Capitalisation) :
  2 <= str_length (getCharacterSet t c) <= 62 /\
  forallb (case_matches c) (chars (getCharacterSet t c)) = true.
Proof. destruct t, c; vm_compute; intuition discriminate. Qed.

(** X14: the characters of a resolved set are pairwise distinct exactly
    when the style is Mixed or the type is neither Alphanumeric nor
    Alphabetic: folding the case of a pool that holds both cases repeats
    every letter. *)
Lemma getCharacterSet_distinct_iff (t : CharacterSetType) (c : Capitalisation) :
  NoDup (chars (getCharacterSet t c)) <->
  (c = Mixed \/ (t <> Alphanumeric /\ t <> Alphabetic)).
Proof.
  split.
  - intros H. apply distinct_of_NoDup in H.
    destruct t, c; vm_compute in H; try discriminate;
      solve [ left; reflexivity | right; split; discriminate ].
  - intros H. apply NoDup_of_distinct.
    destruct t, c; try reflexivity;
      destruct H as [H | [H1 H2]]; congruence.
Qed.

(** C7, at the failing input: asked for the upper-case alphanumeric set,
    [getCharacterSet] returns 62 characters in which every letter occurs
    twice; its characters are not pairwise distinct, although its size and
    the case of its characters are as claimed. *)
Theorem getCharacterSet_uppercase_alphanumeric_repeats :
  getCharacterSet Alphanumeric Uppercase
  = "0123456789ABCDEFGHIJKLMNOPQRSTUVWXYZABCDEFGHIJKLMNOPQRSTUVWXYZ"
  /\ ~ NoDup (chars (getCharacterSet Alphanumeric Uppercase))
  /\ str_length (getCharacterSet Alphanumeric Uppercase) = 62
  /\ forallb (case_matches Uppercase)
       (chars (getCharacterSet Alphanumeric Uppercase)) = true.
Proof.
  split; [reflexivity|]. split; [|split; reflexivity].
  intros H. apply distinct_of_NoDup in H. vm_compute in H. discriminate.
Qed.

(** C8: the resolved set is the pool composed for the type (digits, then
    lower-case, then upper-case letters for Alphanumeric, and so on), with
    the capitalisation applied to the composed pool; (Binary, Mixed)
    resolves to exactly "01". *)
Theorem getCharacterSet_composition :
  (forall t c, getCharacterSet t c = spec_resolve t c)
  /\ charsUpper = "ABCDEFGHIJKLMNOPQRSTUVWXYZ"
  /\ getCharacterSet Binary Mixed = "01".
Proof.
  split; [|split; reflexivity].
  intros t c. destruct t, c; reflexivity.
Qed.

(** ** The rejection threshold *)

Lemma getMaxByte_eq (k : Z) : 0 < k -> getMaxByte k = k * (256 / k).
Proof.
  intros Hk. unfold getMaxByte.
  rewrite Z.rem_mod_nonneg by lia.
  pose proof (Z.div_mod 256 k). lia.
Qed.

Lemma getMaxByte_bounds (k : Z) : 1 <= k <= 256 -> k <= getMaxByte k <= 256.
Proof.
  intros Hk. unfold getMaxByte. rewrite Z.rem_mod_nonneg by lia.
  pose proof (Z.mod_pos_bound 256 k).
  pose proof (Z.mod_le 256 k). 
  pose proof (Z.div_mod 256 k).
  assert (1 <= 256 / k) by (apply Z.div_le_lower_bound; lia).
  nia.
Qed.

(** C3: for an alphabet of [k] characters, 1 <= k <= 256, the threshold
    [getMaxByte k] is a multiple of [k], is at most 256, and no multiple of
    [k] up to 256 exceeds it; it is 256 when [k] divides 256; and it is at
    least 128 for every set [getCharacterSet] produces. *)
Theorem getMaxByte_largest_multiple (k : Z) :
  1 <= k <= 256 ->
  getMaxByte k = 256 - 256 mod k
  /\ (k | getMaxByte k)
  /\ getMaxByte k <= 256
  /\ (forall m, (k | m) -> m <= 256 -> m <= getMaxByte k)
  /\ ((k | 256) -> getMaxByte k = 256)
  /\ (forall t c, 128 <= getMaxByte (str_length (getCharacterSet t c))).
Proof.
  intros Hk. rewrite getMaxByte_eq by lia.
  repeat split.
  - pose proof (Z.div_mod 256 k). lia.
  - exists (256 / k). lia.
  - apply Z.mul_div_le. lia.
  - intros m [q ->] Hm.
    assert (q <= 256 / k) by (apply Z.div_le_lower_bound; lia).
    nia.
  - intros [q Hq]. rewrite Hq, Z.div_mul by lia. lia.
  - intros t c. destruct t, c; vm_compute; discriminate.
Qed.

Lemma getMaxByte_largest_multiple_witness :
  1 <= 10 <= 256 /\ (10 | getMaxByte 10) /\ getMaxByte 10 = 250.
Proof.
  split; [lia|].
  destruct (getMaxByte_largest_multiple 10) as (_ & Hdiv & _); [lia|].
  split; [exact Hdiv | reflexivity].
Defined.

(** [Math_ceil_div a b] is the least integer not below [a / b]. *)
Lemma Math_ceil_div_spec (a b : Z) :
  0 < b -> b * (Math_ceil_div a b - 1) < a <= b * Math_ceil_div a b.
Proof.
  intros Hb. unfold Math_ceil_div.
  pose proof (Z.div_mod (- a) b). pose proof (Z.mod_pos_bound (- a) b). lia.
Qed.

(** ** Options *)

Lemma requested_length_default :
  requested_length None = 32
  /\ requested_length (Some RandomStringOptions.empty) = 32
  /\ resolved_alphabet None = getCharacterSet Alphanumeric Mixed.
Proof. repeat split. Qed.

(** [parseOptions] never reads the field [capitalization]. *)
Lemma parseOptions_capitalization_unread (o : RandomStringOptions.t)
    (X : option Capitalization) :
  parseOptions
    (Some {| RandomStringOptions.length := RandomStringOptions.length o;
             RandomStringOptions.charSetType :=
               RandomStringOptions.charSetType o;
             RandomStringOptions.capitalisation :=
               RandomStringOptions.capitalisation o;
             RandomStringOptions.capitalization := X |})
  = parseOptions (Some o).
Proof. reflexivity. Qed.

(** C9, at the failing input: [{capitalization: Uppercase}] parses to the
    default style Mixed, [{capitalisation: Uppercase}] to Uppercase, so the
    two spellings give different parsed options and different alphabets. *)
Theorem parseOptions_spellings_differ :
  parseOptions
    (Some (with_capitalization Uppercase RandomStringOptions.empty))
  = (32, Alphanumeric, Mixed)
  /\ parseOptions
       (Some (with_capitalisation Uppercase RandomStringOptions.empty))
     = (32, Alphanumeric, Uppercase)
  /\ resolved_alphabet
       (Some (with_capitalization Uppercase RandomStringOptions.empty))
     <> resolved_alphabet
          (Some (with_capitalisation Uppercase RandomStringOptions.empty)).
Proof. repeat split. vm_compute. discriminate. Qed.

(** ** The sampling loop of [generateString] *)

(** On the operands the library uses, JavaScript's [%] is [mod]. *)
Lemma rem_mod_length (b : byte) (cs : string) :
  Z.rem (readUInt8 b) (str_length cs) = readUInt8 b mod str_length cs.
Proof.
  unfold readUInt8, str_length.
  destruct (String.length cs) as [|n].
  - simpl. destruct (Z.of_N (Byte.to_N b)); reflexivity.
  - apply Z.rem_mod_nonneg; lia.
Qed.

Lemma sample_app (cs : string) (mb : Z) (a b : Buffer) :
  sample cs mb (a ++ b)%list = sample cs mb a ++ sample cs mb b.
Proof.
  induction a as [|x a IH]; simpl; [reflexivity|].
  destruct (readUInt8 x <? mb); [|assumption].
  now rewrite IH, append_assoc.
Qed.

Lemma sample_in (cs : string) (mb : Z) (bytes : Buffer) (c : ascii) :
  In c (chars (sample cs mb bytes)) -> In c (chars cs).
Proof.
  induction bytes as [|x r IH]; simpl; [tauto|].
  destruct (readUInt8 x <? mb); [|assumption].
  rewrite chars_append, in_app_iff. intros [H | H]; [|auto].
  eapply charAt_in; eauto.
Qed.

Lemma readUInt8_range (b : byte) : 0 <= readUInt8 b < 256.
Proof.
  unfold readUInt8. pose proof (Byte.to_N_bounded b). lia.
Qed.

(** An accepted byte in the buffer yields at least one character. *)
Lemma sample_nonempty (cs : string) (mb : Z) (bytes : Buffer) (b : byte) :
  0 < str_length cs -> In b bytes -> readUInt8 b < mb ->
  (1 <= String.length (sample cs mb bytes))%nat.
Proof.
  intros Hk. induction bytes as [|x r IH]; simpl; [tauto|].
  intros [-> | Hin] Hb.
  - apply Z.ltb_lt in Hb. rewrite Hb, length_append.
    rewrite charAt_length_in_range; [lia|].
    apply Z.mod_pos_bound. assumption.
  - destruct (readUInt8 x <? mb); [|auto].
    rewrite length_append. specialize (IH Hin Hb). lia.
Qed.

Lemma generateString_for_fields (buffer : Buffer)
    (state : GeneratedStringState.t) :
  GeneratedStringState.charSet (generateString_for buffer state)
    = GeneratedStringState.charSet state
  /\ GeneratedStringState.length (generateString_for buffer state)
    = GeneratedStringState.length state
  /\ GeneratedStringState.maxByte (generateString_for buffer state)
    = GeneratedStringState.maxByte state.
Proof.
  revert state. induction buffer as [|b rest IH]; intros state; simpl; auto.
  destruct (_ <? GeneratedStringState.length state); auto.
  destruct (_ <? GeneratedStringState.maxByte state); [|apply IH].
  destruct (IH (GeneratedStringState.append_generated state
                  (charAt (GeneratedStringState.charSet state)
                     (Z.rem (readUInt8 b)
                        (str_length (GeneratedStringState.charSet state))))))
    as (-> & -> & ->).
  auto.
Qed.

(** [generateString] appends to [state.generated] the characters sampled
    from the buffer, cut at the deficit. *)
Lemma generateString_for_sample (buffer : Buffer)
    (state : GeneratedStringState.t) :
  GeneratedStringState.generated (generateString_for buffer state)
  = GeneratedStringState.generated state
    ++ str_take
         (Z.to_nat (GeneratedStringState.length state
                    - str_length (GeneratedStringState.generated state)))
         (sample (GeneratedStringState.charSet state)
            (GeneratedStringState.maxByte state) buffer).
Proof.
  revert state. induction buffer as [|b rest IH]; intros state; simpl.
  - now rewrite str_take_nil, append_nil_r.
  - destruct (Z.ltb_spec (str_length (GeneratedStringState.generated state))
                (GeneratedStringState.length state)) as [Hlt | Hge].
    + destruct (readUInt8 b <? GeneratedStringState.maxByte state).
      * rewrite IH. simpl. rewrite rem_mod_length, append_assoc. f_equal.
        rewrite str_take_append.
        set (p := charAt _ _).
        pose proof (charAt_length_le (GeneratedStringState.charSet state)
          (readUInt8 b mod str_length (GeneratedStringState.charSet state)))
          as Hp.
        fold p in Hp.
        rewrite (str_take_all _ p) by lia.
        f_equal. f_equal. rewrite str_length_append. unfold str_length. lia.
      * apply IH.
    + replace (Z.to_nat _) with 0%nat by lia. simpl.
      now rewrite append_nil_r.
Qed.

(** ** The refill loop of [generate] *)

Lemma generate_unfold (fuel : nat) (options : option RandomStringOptions.t)
    (src : ByteSource) :
  generate fuel options src
  = generate_while fuel (requested_length options)
      (resolved_alphabet options) "" src.
Proof.
  unfold generate, requested_length, resolved_alphabet.
  destruct (parseOptions options) as [[len t] c]. reflexivity.
Qed.

Lemma window_split (src : ByteSource) (from n m : nat) :
  window src from (n + m)
  = (window src from n ++ window src (from + n) m)%list.
Proof. unfold window. now rewrite seq_app, map_app. Qed.

Lemma window_in (src : ByteSource) (from n j : nat) :
  (j < n)%nat -> In (tape src (from + j)%nat) (window src from n).
Proof.
  intros Hj. unfold window. apply in_map, in_seq. lia.
Qed.

Section RefillLoop.

Variable len : Z.
Variable charSet : string.

Local Abbreviation maxByte := (getMaxByte (str_length charSet)).
Local Abbreviation size := (Math_ceil_div (len * 256) maxByte).

(** One iteration of the loop on a source whose next request succeeds. *)
Lemma generate_while_step (fuel : nat) (generated : string)
    (src : ByteSource) :
  str_length generated < len ->
  failure src (List.length (requested src)) = None ->
  generate_while (S fuel) len charSet generated src
  = generate_while fuel len charSet
      (generated
         ++ str_take (Z.to_nat (len - str_length generated))
              (sample charSet maxByte
                 (window src (cursor src) (Z.to_nat size))))
      (advance (Z.to_nat size) (log_request size src)).
Proof.
  intros Hlt Hok. simpl.
  apply Z.ltb_lt in Hlt. rewrite Hlt.
  unfold getRandomBytesSafe, randomBytes. rewrite Hok.
  unfold generateString. simpl fst.
  rewrite generateString_for_sample. reflexivity.
Qed.

(** One iteration of the loop on a source whose next request fails. *)
Lemma generate_while_fail (fuel : nat) (generated : string)
    (src : ByteSource) (e : Error) :
  str_length generated < len ->
  failure src (List.length (requested src)) = Some e ->
  generate_while (S fuel) len charSet generated src
  = (Returns ("getRandomBytesSafe internal error :: " ++ Error_toString e),
     log_request size src).
Proof.
  intros Hlt Hfail. simpl.
  apply Z.ltb_lt in Hlt. rewrite Hlt.
  unfold getRandomBytesSafe, randomBytes. rewrite Hfail. reflexivity.
Qed.

Lemma generate_while_exit (fuel : nat) (generated : string)
    (src : ByteSource) :
  len <= str_length generated ->
  generate_while fuel len charSet generated src = (Returns generated, src).
Proof.
  intros Hge. apply Z.ltb_ge in Hge.
  destruct fuel; simpl; now rewrite Hge.
Qed.

Lemma generate_while_out_of_fuel (generated : string) (src : ByteSource) :
  str_length generated < len ->
  generate_while 0 len charSet generated src = (Diverges, src).
Proof. intros Hlt. apply Z.ltb_lt in Hlt. simpl. now rewrite Hlt. Qed.

Lemma reliable_step (src : ByteSource) (n : nat) (s : Z) :
  reliable src -> reliable (advance n (log_request s src)).
Proof. intros H r. exact (H r). Qed.

Lemma generate_while_log_grows (fuel : nat) :
  forall (generated : string) (src : ByteSource),
    (List.length (requested src)
     <= List.length
          (requested (snd (generate_while fuel len charSet generated src))))%nat.
Proof.
  induction fuel as [|fuel IH]; intros generated src.
  - destruct (Z.lt_ge_cases (str_length generated) len).
    + now rewrite generate_while_out_of_fuel.
    + now rewrite generate_while_exit.
  - destruct (Z.lt_ge_cases (str_length generated) len) as [Hlt | Hge].
    + destruct (failure src (List.length (requested src))) as [e|] eqn:F.
      * rewrite (generate_while_fail _ _ _ e) by assumption.
        simpl. rewrite length_app. lia.
      * rewrite generate_while_step by assumption.
        etransitivity; [|apply IH]. simpl. rewrite length_app. lia.
    + now rewrite generate_while_exit.
Qed.

(** When every request it made succeeded, what the loop returns is what
    it had, followed by the characters sampled from the bytes handed out,
    cut at the deficit; and the loop has then reached the requested
    length. *)
Lemma generate_while_sample (fuel : nat) :
  forall (generated : string) (src : ByteSource) (s : string)
         (src' : ByteSource),
    generate_while fuel len charSet generated src = (Returns s, src') ->
    succeeded src src' ->
    len <= str_length s
    /\ exists m,
         cursor src' = (cursor src + m)%nat
         /\ s = generated
                ++ str_take (Z.to_nat (len - str_length generated))
                     (sample charSet maxByte (window src (cursor src) m)).
Proof.
  induction fuel as [|fuel IH]; intros generated src s src' Hrun Hok.
  - destruct (Z.lt_ge_cases (str_length generated) len) as [Hlt | Hge].
    + rewrite generate_while_out_of_fuel in Hrun by assumption.
      discriminate.
    + rewrite generate_while_exit in Hrun by assumption.
      injection Hrun as <- <-. split; [assumption|].
      exists 0%nat. rewrite Nat.add_0_r. split; [reflexivity|].
      simpl. now rewrite str_take_nil, append_nil_r.
  - destruct (Z.lt_ge_cases (str_length generated) len) as [Hlt | Hge].
    + pose proof (generate_while_log_grows fuel
        (generated
           ++ str_take (Z.to_nat (len - str_length generated))
                (sample charSet maxByte
                   (window src (cursor src) (Z.to_nat size))))
        (advance (Z.to_nat size) (log_request size src))) as Hgrow.
      destruct (failure src (List.length (requested src))) as [e|] eqn:F.
      * rewrite (generate_while_fail _ _ _ e) in Hrun by assumption.
        injection Hrun as _ <-.
        rewrite Hok in F; [discriminate|].
        simpl. rewrite length_app. simpl. lia.
      * rewrite generate_while_step in Hrun by assumption.
        rewrite Hrun in Hgrow. simpl in Hgrow.
        rewrite length_app in Hgrow. simpl in Hgrow.
        apply IH in Hrun.
        2:{ intros r Hr. apply Hok. simpl in Hr.
            rewrite length_app in Hr. simpl in Hr. lia. }
        destruct Hrun as [Hlen [m [Hcur Hs]]]. split; [assumption|].
        exists (Z.to_nat size + m)%nat. simpl in Hcur, Hs.
        split; [lia|].
        rewrite Hs, window_split, sample_app, append_assoc. f_equal.
        rewrite (str_take_append _ (sample _ _ _)). f_equal. f_equal.
        rewrite str_length_append. unfold str_length. lia.
    + rewrite generate_while_exit in Hrun by assumption.
      injection Hrun as <- <-. split; [assumption|].
      exists 0%nat. rewrite Nat.add_0_r. split; [reflexivity|].
      simpl. now rewrite str_take_nil, append_nil_r.
Qed.

(** The loop never requests anything but [size] bytes. *)
Lemma generate_while_requests (fuel : nat) :
  forall (generated : string) (src : ByteSource),
  exists rounds,
    requested (snd (generate_while fuel len charSet generated src))
    = (requested src ++ repeat size rounds)%list.
Proof.
  induction fuel as [|fuel IH]; intros generated src.
  - exists 0%nat. rewrite app_nil_r.
    destruct (Z.lt_ge_cases (str_length generated) len).
    + now rewrite generate_while_out_of_fuel.
    + now rewrite generate_while_exit.
  - destruct (Z.lt_ge_cases (str_length generated) len) as [Hlt | Hge].
    + destruct (failure src (List.length (requested src))) as [e|] eqn:F.
      * exists 1%nat. now rewrite (generate_while_fail _ _ _ e).
      * rewrite generate_while_step by assumption.
        destruct (IH (generated
           ++ str_take (Z.to_nat (len - str_length generated))
                (sample charSet maxByte
                   (window src (cursor src) (Z.to_nat size))))
          (advance (Z.to_nat size) (log_request size src))) as [n Hn].
        exists (S n). rewrite Hn. simpl. now rewrite <- app_assoc.
    + exists 0%nat. rewrite app_nil_r. now rewrite generate_while_exit.
Qed.

(** A failed request is the last one the loop makes, and the loop then
    returns the error's text behind a fixed prefix. *)
Lemma generate_while_failure (fuel : nat) :
  forall (generated : string) (src : ByteSource) (r : nat) (e : Error),
    (List.length (requested src) <= r
     < List.length
         (requested (snd (generate_while fuel len charSet generated src))))%nat ->
    failure src r = Some e ->
    generate_while fuel len charSet generated src
    = (Returns ("getRandomBytesSafe internal error :: " ++ Error_toString e),
       snd (generate_while fuel len charSet generated src))
    /\ List.length
         (requested (snd (generate_while fuel len charSet generated src)))
       = S r.
Proof.
  induction fuel as [|fuel IH]; intros generated src r e Hr He.
  - exfalso.
    destruct (Z.lt_ge_cases (str_length generated) len).
    + rewrite generate_while_out_of_fuel in Hr by assumption. simpl in Hr. lia.
    + rewrite generate_while_exit in Hr by assumption. simpl in Hr. lia.
  - destruct (Z.lt_ge_cases (str_length generated) len) as [Hlt | Hge].
    + destruct (failure src (List.length (requested src))) as [e0|] eqn:F.
      * rewrite (generate_while_fail _ _ _ e0) in * by assumption.
        simpl in *. rewrite length_app in *. simpl in *.
        assert (r = List.length (requested src)) by lia. subst r.
        rewrite F in He. injection He as ->. split; [reflexivity | lia].
      * rewrite generate_while_step in * by assumption.
        apply IH; [|exact He].
        simpl. rewrite length_app. simpl.
        assert (r <> List.length (requested src)) by congruence.
        lia.
    + exfalso. rewrite generate_while_exit in Hr by assumption.
      simpl in Hr. lia.
Qed.

Lemma productive_step (n : nat) (s : Z) (src : ByteSource) :
  productive maxByte n src ->
  productive maxByte n (advance n (log_request s src)).
Proof.
  intros H i. destruct (H (S i)) as [j [Hj Hb]]. exists j.
  split; [assumption|]. simpl.
  replace (cursor src + n + i * n + j)%nat
    with (cursor src + S i * n + j)%nat by (simpl; lia).
  assumption.
Qed.

(** On a reliable source every buffer of which holds an accepted byte,
    the loop returns within as many rounds as characters are missing. *)
Lemma generate_while_terminates (fuel : nat) :
  forall (generated : string) (src : ByteSource),
    0 < str_length charSet ->
    reliable src ->
    productive maxByte (Z.to_nat size) src ->
    (Z.to_nat (len - str_length generated) <= fuel)%nat ->
    exists s src',
      generate_while fuel len charSet generated src = (Returns s, src').
Proof.
  induction fuel as [|fuel IH]; intros generated src Hk Hrel Hprod Hfuel.
  - exists generated, src. apply generate_while_exit. lia.
  - destruct (Z.lt_ge_cases (str_length generated) len) as [Hlt | Hge].
    + rewrite generate_while_step by auto.
      apply IH; auto using reliable_step, productive_step.
      destruct (Hprod 0%nat) as [j [Hj Hb]].
      rewrite Nat.mul_0_l, Nat.add_0_r in Hb.
      pose proof (sample_nonempty charSet maxByte
        (window src (cursor src) (Z.to_nat size)) _ Hk
        (window_in src (cursor src) _ j Hj) Hb) as Hne.
      rewrite str_length_append. unfold str_length in *.
      rewrite str_take_length. lia.
    + exists generated, src. now apply generate_while_exit.
Qed.

End RefillLoop.

(** ** The blocking variant *)

Lemma reliable_succeeded (src src' : ByteSource) :
  reliable src -> succeeded src src'.
Proof. intros H r _. apply H. Qed.

Lemma resolved_alphabet_size (options : option RandomStringOptions.t) :
  2 <= str_length (resolved_alphabet options) <= 62.
Proof. unfold resolved_alphabet. apply getCharacterSet_size_and_case. Qed.

(** C1: for a request with a positive length (32 when the option is
    absent), whenever [generate] returns after requests that all succeeded,
    the returned string has exactly the requested length; and on a source
    that never fails and whose every buffer holds a byte below the
    threshold, [generate] does return such a string, within as many rounds
    as characters were requested. *)
Theorem generate_length_exact (options : option RandomStringOptions.t)
    (src : ByteSource) :
  0 < requested_length options ->
  (forall fuel s src',
      generate fuel options src = (Returns s, src') ->
      succeeded src src' ->
      str_length s = requested_length options)
  /\ (reliable src ->
      productive (getMaxByte (str_length (resolved_alphabet options)))
        (Z.to_nat (draw_size options)) src ->
      forall fuel, (Z.to_nat (requested_length options) <= fuel)%nat ->
      exists s src',
        generate fuel options src = (Returns s, src')
        /\ str_length s = requested_length options)
  /\ (options ?. RandomStringOptions.length = None ->
      requested_length options = 32).
Proof.
  intros Hpos.
  assert (Hdefault : options ?. RandomStringOptions.length = None ->
                     requested_length options = 32).
  { unfold requested_length, parseOptions. simpl. now intros ->. }
  assert (Hexact : forall fuel s src',
      generate fuel options src = (Returns s, src') ->
      succeeded src src' ->
      str_length s = requested_length options).
  { intros fuel s src' Hrun Hok. rewrite generate_unfold in Hrun.
    destruct (generate_while_sample _ _ _ _ _ _ _ Hrun Hok)
      as [Hge [m [_ Hs]]].
    apply Z.le_antisymm; [|assumption].
    rewrite Hs. simpl. unfold str_length. rewrite str_take_length.
    simpl. lia. }
  split; [exact Hexact|]. split; [|exact Hdefault].
  intros Hrel Hprod fuel Hfuel.
  pose proof (resolved_alphabet_size options) as Hk.
  assert (Hfuel' : (Z.to_nat (requested_length options - str_length "")
                    <= fuel)%nat)
    by (change (str_length "") with 0; rewrite Z.sub_0_r; exact Hfuel).
  assert (Hk' : 0 < str_length (resolved_alphabet options)) by lia.
  destruct (generate_while_terminates (requested_length options)
              (resolved_alphabet options) fuel "" src Hk' Hrel Hprod Hfuel')
    as [s [src' Hrun]].
  rewrite <- generate_unfold in Hrun.
  exists s, src'. split; [assumption|].
  eapply Hexact; eauto using reliable_succeeded.
Qed.

Lemma generate_length_exact_witness :
  0 < requested_length None
  /\ reliable (source_of [] never_fails)
  /\ exists s src',
       generate 32 None (source_of [] never_fails) = (Returns s, src')
       /\ str_length s = 32.
Proof.
  assert (Hpos : 0 < requested_length None) by reflexivity.
  assert (Hrel : reliable (source_of [] never_fails)) by (intros r; reflexivity).
  split; [exact Hpos|]. split; [exact Hrel|].
  destruct (generate_length_exact None (source_of [] never_fails) Hpos)
    as (_ & Hreturns & _).
  apply Hreturns; [exact Hrel | | vm_compute; lia].
  intros i. exists 0%nat. split; [vm_compute; lia|].
  cbv [source_of tape cursor]. rewrite nth_overflow by (simpl; lia).
  reflexivity.
Defined.

(** C2: when [generate] returns after requests that all succeeded, its
    result is the sequence obtained from the bytes the source handed out by
    dropping every byte not below the threshold and replacing every other
    byte [b] by the alphabet's character at index [b mod k], cut at the
    requested length; so every character of the result belongs to the
    resolved alphabet. *)
Theorem generate_output_in_alphabet (fuel : nat)
    (options : option RandomStringOptions.t) (src : ByteSource)
    (s : string) (src' : ByteSource) :
  generate fuel options src = (Returns s, src') ->
  succeeded src src' ->
  (forall c, In c (chars s) -> In c (chars (resolved_alphabet options)))
  /\ exists m,
       cursor src' = (cursor src + m)%nat
       /\ s = str_take (Z.to_nat (requested_length options))
                (sample (resolved_alphabet options)
                   (getMaxByte (str_length (resolved_alphabet options)))
                   (window src (cursor src) m)).
Proof.
  intros Hrun Hok. rewrite generate_unfold in Hrun.
  destruct (generate_while_sample _ _ _ _ _ _ _ Hrun Hok) as [_ [m [Hcur Hs]]].
  simpl in Hs. rewrite Z.sub_0_r in Hs.
  split; [|exists m; auto].
  intros c Hc. rewrite Hs in Hc.
  eapply sample_in, str_take_in, Hc.
Qed.

Lemma generate_output_in_alphabet_witness :
  generate 5 (with_length 2 Numeric)
    (source_of [xff; xff; x00; x07; x08; x09] never_fails)
  = (Returns "07",
     advance 6 (log_request 3 (log_request 3
       (source_of [xff; xff; x00; x07; x08; x09] never_fails))))
  /\ forall c, In c (chars "07") -> In c (chars "0123456789").
Proof.
  assert (Hrun : generate 5 (with_length 2 Numeric)
    (source_of [xff; xff; x00; x07; x08; x09] never_fails)
  = (Returns "07",
     advance 6 (log_request 3 (log_request 3
       (source_of [xff; xff; x00; x07; x08; x09] never_fails)))))
    by reflexivity.
  split; [exact Hrun|].
  apply (generate_output_in_alphabet _ _ _ _ _ Hrun).
  intros r _. reflexivity.
Defined.

(** C10: with a requested length of 0, or below, [generate] returns the
    empty string and leaves the byte source as it found it: no request is
    made. *)
Theorem generate_nonpositive_length (fuel : nat)
    (options : option RandomStringOptions.t) (src : ByteSource) :
  requested_length options <= 0 ->
  generate fuel options src = (Returns "", src).
Proof.
  intros H. rewrite generate_unfold. apply generate_while_exit.
  simpl. assumption.
Qed.

Lemma generate_nonpositive_length_witness :
  requested_length (with_length 0 Alphanumeric) <= 0
  /\ generate 0 (with_length 0 Alphanumeric) (source_of [] never_fails)
     = (Returns "", source_of [] never_fails).
Proof.
  split; [vm_compute; discriminate|].
  apply generate_nonpositive_length. vm_compute. discriminate.
Defined.

(** *** The size of the draws *)

(** A run of two rounds: the first buffer yields one character out of the
    two requested, and the second draw is as large as the first. *)
Example generate_two_rounds :
  fst (generate 5 (with_length 2 Numeric)
         (source_of [xff; xff; x00; x07; x08; x09] never_fails))
  = Returns "07"
  /\ requested (snd (generate 5 (with_length 2 Numeric)
         (source_of [xff; xff; x00; x07; x08; x09] never_fails)))
     = [3; 3]
  /\ requested (snd (spec_generate 5 (with_length 2 Numeric)
         (source_of [xff; xff; x00; x07; x08; x09] never_fails)))
     = [3; 2].
Proof. repeat split. Qed.

(** C4 as stated fails: ten digits, two characters requested, the first
    buffer [ff ff 00] leaves a deficit of one character; sized by that
    deficit the second draw would be of ceil (1 * 256 / 250) = 2 bytes, and
    [generate] draws 3 again. *)
Lemma generate_draws_not_by_deficit :
  ~ draws_by_deficit 5 (with_length 2 Numeric)
      (source_of [xff; xff; x00; x07; x08; x09] never_fails).
Proof. unfold draws_by_deficit. vm_compute. discriminate. Qed.

(** C4, amended: every request that the blocking [generate] makes is of
    [draw_size] bytes, the least integer not below
    [length * 256 / maxByte], where [length] is the requested length: the
    same size in every round. *)
Theorem generate_draws_by_requested_length (fuel : nat)
    (options : option RandomStringOptions.t) (src : ByteSource) :
  (exists rounds,
     requested (snd (generate fuel options src))
     = (requested src ++ repeat (draw_size options) rounds)%list)
  /\ getMaxByte (str_length (resolved_alphabet options))
       * (draw_size options - 1)
     < requested_length options * 256
     <= getMaxByte (str_length (resolved_alphabet options))
        * draw_size options.
Proof.
  split.
  - rewrite generate_unfold. apply generate_while_requests.
  - apply Math_ceil_div_spec.
    pose proof (resolved_alphabet_size options) as Hk.
    pose proof (getMaxByte_bounds (str_length (resolved_alphabet options))).
    lia.
Qed.

(** *** A failing byte source *)

(** C5 as stated fails: when the very first request fails, [generate]
    returns a string made of the error's text, and throws nothing. *)
Lemma generate_failure_is_returned :
  fst (generate 5 (with_length 2 Numeric)
         (source_of [xff; xff; x00; x07; x08; x09] (fails_at 0)))
  = Returns "getRandomBytesSafe internal error :: Error: entropy unavailable"
  /\ ~ failure_propagates 5 (with_length 2 Numeric)
         (source_of [xff; xff; x00; x07; x08; x09] (fails_at 0)).
Proof.
  split; [reflexivity|].
  intros H. specialize (H 0%nat entropy_unavailable).
  assert (K : fst (generate 5 (with_length 2 Numeric)
         (source_of [xff; xff; x00; x07; x08; x09] (fails_at 0)))
       = Throws entropy_unavailable).
  { apply H; [vm_compute; lia | reflexivity]. }
  vm_compute in K. discriminate K.
Qed.

(** C5, amended: when a request that the blocking [generate] makes fails,
    that request is the last one it makes (no retry), and [generate] returns
    the string "getRandomBytesSafe internal error :: " followed by the
    error's text; nothing of what earlier rounds generated is in it. *)
Theorem generate_failure_returns_error_text (fuel : nat)
    (options : option RandomStringOptions.t) (src : ByteSource)
    (r : nat) (e : Error) :
  (List.length (requested src) <= r
     < List.length (requested (snd (generate fuel options src))))%nat ->
  failure src r = Some e ->
  fst (generate fuel options src)
  = Returns ("getRandomBytesSafe internal error :: " ++ Error_toString e)
  /\ List.length (requested (snd (generate fuel options src))) = S r.
Proof.
  rewrite generate_unfold. intros Hr He.
  destruct (generate_while_failure _ _ _ _ _ _ _ Hr He) as [Hrun Hlast].
  rewrite Hrun at 1. split; [reflexivity | exact Hlast].
Qed.

Lemma generate_failure_returns_error_text_witness :
  failure (source_of [xff; xff; x00; x07; x08; x09] (fails_at 1)) 1
  = Some entropy_unavailable
  /\ fst (generate 5 (with_length 2 Numeric)
            (source_of [xff; xff; x00; x07; x08; x09] (fails_at 1)))
     = Returns ("getRandomBytesSafe internal error :: "
                  ++ Error_toString entropy_unavailable)
  /\ List.length
       (requested (snd (generate 5 (with_length 2 Numeric)
          (source_of [xff; xff; x00; x07; x08; x09] (fails_at 1)))))
     = 2%nat.
Proof.
  split; [reflexivity|].
  apply (generate_failure_returns_error_text 5 (with_length 2 Numeric)
           (source_of [xff; xff; x00; x07; x08; x09] (fails_at 1))
           1 entropy_unavailable).
  - vm_compute. lia.
  - reflexivity.
Defined.

(** ** The callback variant *)

(** With a global [length], a failing request reaches the caller's callback
    once, as [(error, undefined)]; the code then goes on to read the buffer
    it did not get, which throws. *)
Lemma generateStringAsync_failure (fuel : nat) (g : Z)
    (state : GeneratedStringState.t) (src : ByteSource) (e : Error) :
  failure src (List.length (requested src)) = Some e ->
  generateStringAsync (S fuel) (Some g) state src
  = ({| calls := [(Some e, None)];
        ending := Throws TypeError_undefined_buffer |},
     log_request g src).
Proof.
  intros H. simpl. unfold randomBytesAsync, randomBytes. rewrite H.
  reflexivity.
Qed.

(** With a global [length], every request is of that many bytes, whatever
    the request's own length and alphabet. *)
Example generateAsync_draws_global_length :
  generateAsync 5 (Some 0) (with_length 2 Numeric)
    (source_of [xff; xff; x00; x07; x08; x09] never_fails)
  = ({| calls := [(None, Some "")]; ending := Returns tt |},
     advance 0 (log_request 0
       (source_of [xff; xff; x00; x07; x08; x09] never_fails))).
Proof. reflexivity. Qed.

(** C6, at the failing input: where the global object has no property
    [length] (Node), [generateAsync] throws a ReferenceError before it
    makes any request, for every request and every byte source, and the
    caller's callback is never invoked. *)
Theorem generateAsync_never_calls_back (fuel : nat)
    (options : option RandomStringOptions.t) (src : ByteSource) :
  generateAsync fuel None options src
  = ({| calls := []; ending := Throws ReferenceError_length |}, src)
  /\ generateRandomStringAsync fuel None options src
     = generateAsync fuel None options src.
Proof.
  split; [|reflexivity].
  unfold generateAsync. destruct (parseOptions options) as [[len t] c].
  destruct fuel; reflexivity.
Qed.

(* ================================================================= *)
(** * Further properties *)

(** ** Which bytes give which character *)

Lemma byte_values_complete (b : Z) : 0 <= b < 256 -> In b byte_values.
Proof.
  intros H. unfold byte_values. apply in_map_iff.
  exists (Z.to_nat b). split; [lia | apply in_seq; lia].
Qed.

Lemma all_ascii_complete (ch : ascii) : In ch all_ascii.
Proof.
  unfold all_ascii. apply in_map_iff. exists (nat_of_ascii ch).
  split; [apply ascii_nat_embedding|].
  apply in_seq. pose proof (nat_ascii_bounded ch). lia.
Qed.

Lemma all_bytes_complete (b : byte) : In b all_bytes.
Proof.
  unfold all_bytes. apply in_map_iff. exists (Byte.to_nat b).
  split.
  - unfold byte_of_nat. now rewrite Byte.of_to_nat.
  - apply in_seq. pose proof (Byte.to_nat_bounded b). lia.
Qed.

Lemma range_complete (k i : Z) :
  0 <= i < k -> In i (map Z.of_nat (seq 0 (Z.to_nat k))).
Proof.
  intros H. apply in_map_iff. exists (Z.to_nat i).
  split; [lia | apply in_seq; lia].
Qed.

Lemma NoDup_map_injective {A B : Type} (f : A -> B) (l : list A) :
  (forall x y, f x = f y -> x = y) -> NoDup l -> NoDup (map f l).
Proof.
  intros Hinj. induction 1 as [|x l Hx _ IH]; simpl; constructor; auto.
  intros Hin. apply in_map_iff in Hin. destruct Hin as [y [Hy Hin]].
  apply Hinj in Hy. now subst y.
Qed.

Lemma byte_values_NoDup : NoDup byte_values.
Proof.
  apply NoDup_map_injective; [intros x y; lia | apply seq_NoDup].
Qed.

Lemma byte_values_in (b : Z) : In b byte_values <-> 0 <= b < 256.
Proof.
  split; [|apply byte_values_complete].
  unfold byte_values. rewrite in_map_iff. intros [n [<- Hn]].
  apply in_seq in Hn. lia.
Qed.

(** X1: for an alphabet of [k] characters, 1 <= k <= 256, every index
    below [k] is reached from the same number of byte values, 256 / k: the
    accepted bytes are spread evenly over the indices. *)
Theorem bytes_yielding_uniform (k i : Z) :
  1 <= k <= 256 -> 0 <= i < k ->
  Z.of_nat (List.length (bytes_yielding k i)) = 256 / k.
Proof.
  intros Hk Hi.
  set (q := 256 / k).
  assert (Hq : 0 <= q) by (apply Z.div_pos; lia).
  assert (Hkq : k * q <= 256) by (apply Z.mul_div_le; lia).
  set (images := map (fun j => i + k * Z.of_nat j) (seq 0 (Z.to_nat q))).
  assert (Hperm : Permutation (bytes_yielding k i) images).
  { apply NoDup_Permutation.
    - apply NoDup_filter, byte_values_NoDup.
    - apply NoDup_map_injective; [intros x y; nia | apply seq_NoDup].
    - intros b. unfold bytes_yielding, images.
      rewrite filter_In, byte_values_in, andb_true_iff, Z.ltb_lt, Z.eqb_eq,
        in_map_iff, getMaxByte_eq by lia.
      fold q. split.
      + intros [Hb [Hlt Hrem]].
        rewrite Z.rem_mod_nonneg in Hrem by lia.
        pose proof (Z.div_mod b k) as Hdm.
        assert (0 <= b / k) by (apply Z.div_pos; lia).
        exists (Z.to_nat (b / k)). split; [lia|].
        apply in_seq. nia.
      + intros [j [<- Hj]]. apply in_seq in Hj.
        split; [nia|]. split; [nia|].
        rewrite Z.rem_mod_nonneg by nia.
        rewrite Z.mul_comm, Z.mod_add by lia. apply Z.mod_small. lia. }
  apply Permutation_length in Hperm. rewrite Hperm. unfold images.
  rewrite length_map, length_seq. lia.
Qed.

Lemma bytes_yielding_uniform_witness :
  1 <= 62 <= 256 /\ 0 <= 61 < 62
  /\ Z.of_nat (List.length (bytes_yielding 62 61)) = 4.
Proof.
  split; [lia|]. split; [lia|].
  apply (bytes_yielding_uniform 62 61); lia.
Defined.

Lemma filter_map_length {A B : Type} (f : B -> bool) (g : A -> B)
    (l : list A) :
  List.length (filter (fun x => f (g x)) l)
  = List.length (filter f (map g l)).
Proof.
  induction l as [|x l IH]; simpl; [reflexivity|].
  destruct (f (g x)); simpl; now rewrite IH.
Qed.

(** The table of the characters that the 256 bytes give, checked against
    the occurrences of every character. *)
Lemma bytes_giving_checked (cs : string) :
  (let given := map (char_of_byte cs) all_bytes in
   forallb (fun ch =>
      Nat.eqb
        (List.length
           (filter (fun s => (s =? String ch "")%string) given))
        (Z.to_nat (256 / str_length cs) * occurrences ch cs))
     all_ascii
   && (Z.of_nat (List.length (filter (fun s => (s =? "")%string) given))
       =? 256 mod str_length cs)) = true ->
  forall ch,
    List.length (bytes_giving cs (String ch ""))
    = (Z.to_nat (256 / str_length cs) * occurrences ch cs)%nat
    /\ Z.of_nat (List.length (bytes_giving cs "")) = 256 mod str_length cs.
Proof.
  cbv zeta. intros H ch. apply andb_true_iff in H. destruct H as [H1 H2].
  rewrite forallb_forall in H1. specialize (H1 ch (all_ascii_complete ch)).
  apply Nat.eqb_eq in H1. apply Z.eqb_eq in H2.
  unfold bytes_giving.
  rewrite (filter_map_length (fun s => (s =? String ch "")%string)),
    (filter_map_length (fun s => (s =? "")%string)).
  split; assumption.
Qed.

(** X2: of the 256 byte values, those for which the sampling loop appends
    the character [ch] of a resolved set are 256 / k times as many as [ch]
    has occurrences in the set, [k] being the set's length; the bytes for
    which it appends nothing are 256 mod k. *)
Theorem bytes_per_character (t : CharacterSetType) (c : Capitalisation)
    (ch : ascii) :
  List.length (bytes_giving (getCharacterSet t c) (String ch ""))
  = (Z.to_nat (256 / str_length (getCharacterSet t c))
     * occurrences ch (getCharacterSet t c))%nat
  /\ Z.of_nat (List.length (bytes_giving (getCharacterSet t c) ""))
     = 256 mod str_length (getCharacterSet t c).
Proof.
  revert ch. destruct t, c; apply bytes_giving_checked;
    vm_compute; reflexivity.
Qed.

(** ** More on the blocking variant *)

Lemma resolved_maxByte_bounds (options : option RandomStringOptions.t) :
  128 <= getMaxByte (str_length (resolved_alphabet options)) <= 256.
Proof.
  unfold resolved_alphabet.
  destruct (snd (fst (parseOptions options))), (snd (parseOptions options));
    vm_compute; split; discriminate.
Qed.

(** X3: for a requested length that is not negative, every draw of the
    blocking [generate] asks for at least as many bytes as characters were
    requested, and for at most twice as many. *)
Theorem generate_draw_size_bounds (options : option RandomStringOptions.t) :
  0 <= requested_length options ->
  requested_length options <= draw_size options
  <= 2 * requested_length options.
Proof.
  intros HL.
  pose proof (resolved_maxByte_bounds options) as Hmb.
  pose proof (Math_ceil_div_spec (requested_length options * 256)
    (getMaxByte (str_length (resolved_alphabet options)))) as Hceil.
  fold (draw_size options) in Hceil.
  specialize (Hceil ltac:(lia)). nia.
Qed.

Lemma generate_draw_size_bounds_witness :
  0 <= requested_length None
  /\ draw_size None = 34
  /\ requested_length None <= draw_size None <= 2 * requested_length None.
Proof.
  split; [vm_compute; discriminate|]. split; [reflexivity|].
  apply (generate_draw_size_bounds None). vm_compute. discriminate.
Defined.

Lemma sample_length_le (cs : string) (mb : Z) (bytes : Buffer) :
  (String.length (sample cs mb bytes) <= List.length bytes)%nat.
Proof.
  induction bytes as [|b r IH]; simpl; [lia|].
  destruct (readUInt8 b <? mb); [|lia].
  rewrite length_append.
  pose proof (charAt_length_le cs (readUInt8 b mod str_length cs)). lia.
Qed.

(** With the threshold at 256 no byte is dropped. *)
Lemma sample_length_all (cs : string) (bytes : Buffer) :
  0 < str_length cs ->
  String.length (sample cs 256 bytes) = List.length bytes.
Proof.
  intros Hk. induction bytes as [|b r IH]; simpl; [reflexivity|].
  pose proof (readUInt8_range b) as Hb.
  destruct (Z.ltb_spec (readUInt8 b) 256); [|lia].
  rewrite length_append, IH, charAt_length_in_range; [reflexivity|].
  apply Z.mod_pos_bound. assumption.
Qed.

Lemma generate_first_round_enough (fuel : nat)
    (options : option RandomStringOptions.t) (src : ByteSource) :
  0 < requested_length options ->
  failure src (List.length (requested src)) = None ->
  requested_length options
  <= str_length
       (sample (resolved_alphabet options)
          (getMaxByte (str_length (resolved_alphabet options)))
          (window src (cursor src) (Z.to_nat (draw_size options)))) ->
  generate (S fuel) options src
  = (Returns
       (str_take (Z.to_nat (requested_length options))
          (sample (resolved_alphabet options)
             (getMaxByte (str_length (resolved_alphabet options)))
             (window src (cursor src) (Z.to_nat (draw_size options))))),
     advance (Z.to_nat (draw_size options))
       (log_request (draw_size options) src)).
Proof.
  intros HL Hok Henough.
  rewrite generate_unfold, generate_while_step by (simpl; assumption).
  change (str_length "") with 0. rewrite Z.sub_0_r. simpl append.
  apply generate_while_exit.
  unfold str_length in *. rewrite str_take_length. lia.
Qed.

(** X4: when the first buffer drawn holds enough accepted bytes, the
    blocking [generate] returns after that one request: the first
    characters sampled from that buffer, as many as were requested. *)
Theorem generate_one_round (fuel : nat)
    (options : option RandomStringOptions.t) (src : ByteSource) :
  0 < requested_length options ->
  failure src (List.length (requested src)) = None ->
  requested_length options
  <= str_length
       (sample (resolved_alphabet options)
          (getMaxByte (str_length (resolved_alphabet options)))
          (window src (cursor src) (Z.to_nat (draw_size options)))) ->
  generate (S fuel) options src
  = (Returns
       (str_take (Z.to_nat (requested_length options))
          (sample (resolved_alphabet options)
             (getMaxByte (str_length (resolved_alphabet options)))
             (window src (cursor src) (Z.to_nat (draw_size options))))),
     advance (Z.to_nat (draw_size options))
       (log_request (draw_size options) src)).
Proof. apply generate_first_round_enough. Qed.

Lemma generate_one_round_witness :
  0 < requested_length (with_length 2 Numeric)
  /\ generate 1 (with_length 2 Numeric)
       (source_of [x07; xff; x2a] never_fails)
     = (Returns "72",
        advance 3 (log_request 3 (source_of [x07; xff; x2a] never_fails))).
Proof.
  split; [reflexivity|].
  apply (generate_one_round 0 (with_length 2 Numeric)
           (source_of [x07; xff; x2a] never_fails)).
  - reflexivity.
  - reflexivity.
  - vm_compute. discriminate.
Defined.

(** X5: when the length of the resolved set divides 256 (Hex, Binary and
    Octal in every capitalisation), the blocking [generate] makes exactly
    one request, of exactly as many bytes as characters were requested, and
    every byte of the buffer gives one character of the result. *)
Theorem generate_one_request_when_size_divides_256 (fuel : nat)
    (options : option RandomStringOptions.t) (src : ByteSource) :
  0 < requested_length options ->
  (str_length (resolved_alphabet options) | 256) ->
  failure src (List.length (requested src)) = None ->
  generate (S fuel) options src
  = (Returns
       (sample (resolved_alphabet options) 256
          (window src (cursor src) (Z.to_nat (requested_length options)))),
     advance (Z.to_nat (requested_length options))
       (log_request (requested_length options) src))
  /\ str_length
       (sample (resolved_alphabet options) 256
          (window src (cursor src) (Z.to_nat (requested_length options))))
     = requested_length options.
Proof.
  intros HL [q Hq] Hok.
  pose proof (resolved_alphabet_size options) as Hk.
  assert (Hmb : getMaxByte (str_length (resolved_alphabet options)) = 256).
  { unfold getMaxByte. rewrite Z.rem_mod_nonneg by lia.
    rewrite (Z.mod0_divide 256 _ (ex_intro _ q Hq)). reflexivity. }
  assert (Hdraw : draw_size options = requested_length options).
  { unfold draw_size, Math_ceil_div. rewrite Hmb.
    rewrite <- Z.mul_opp_l, Z.div_mul by lia. lia. }
  assert (Hlen : str_length
       (sample (resolved_alphabet options) 256
          (window src (cursor src) (Z.to_nat (requested_length options))))
     = requested_length options).
  { unfold str_length. rewrite sample_length_all by lia.
    unfold window. rewrite length_map, length_seq. lia. }
  split; [|exact Hlen].
  rewrite generate_first_round_enough; rewrite ?Hmb, ?Hdraw;
    try assumption; [|lia].
  rewrite str_take_all; [reflexivity|].
  unfold str_length in Hlen. lia.
Qed.

Lemma generate_one_request_when_size_divides_256_witness :
  (str_length (resolved_alphabet (with_length 4 Hex)) | 256)
  /\ generate 1 (with_length 4 Hex)
       (source_of [xde; xad; xbe; xef] never_fails)
     = (Returns "edef",
        advance 4 (log_request 4
          (source_of [xde; xad; xbe; xef] never_fails))).
Proof.
  assert (Hdiv : (str_length (resolved_alphabet (with_length 4 Hex)) | 256))
    by (exists 16; reflexivity).
  split; [exact Hdiv|].
  apply (generate_one_request_when_size_divides_256 0 (with_length 4 Hex)
           (source_of [xde; xad; xbe; xef] never_fails));
    [reflexivity | exact Hdiv | reflexivity].
Defined.

(** The loop ends in one of two ways when it returns: with the sampled
    characters after requests that all succeeded, or with the text of the
    error of its last request. *)
Lemma generate_while_all_or_nothing (len : Z) (charSet : string)
    (fuel : nat) :
  forall (generated : string) (src : ByteSource),
    match fst (generate_while fuel len charSet generated src) with
    | Returns s =>
        (len <= str_length s
         /\ exists m,
              s = generated
                  ++ str_take (Z.to_nat (len - str_length generated))
                       (sample charSet (getMaxByte (str_length charSet))
                          (window src (cursor src) m)))
        \/ (exists r e, failure src r = Some e /\ s = error_text e)
    | Throws _ => False
    | Diverges => True
    end.
Proof.
  induction fuel as [|fuel IH]; intros generated src.
  - destruct (Z.lt_ge_cases (str_length generated) len) as [Hlt | Hge].
    + now rewrite generate_while_out_of_fuel.
    + rewrite generate_while_exit by assumption. simpl. left.
      split; [assumption|]. exists 0%nat.
      simpl. now rewrite str_take_nil, append_nil_r.
  - destruct (Z.lt_ge_cases (str_length generated) len) as [Hlt | Hge].
    + destruct (failure src (List.length (requested src))) as [e|] eqn:F.
      * rewrite (generate_while_fail _ _ _ _ _ e) by assumption. simpl.
        right. eauto.
      * rewrite generate_while_step by assumption.
        specialize (IH
          (generated
             ++ str_take (Z.to_nat (len - str_length generated))
                  (sample charSet (getMaxByte (str_length charSet))
                     (window src (cursor src)
                        (Z.to_nat (Math_ceil_div (len * 256)
                           (getMaxByte (str_length charSet)))))))
          (advance (Z.to_nat (Math_ceil_div (len * 256)
                     (getMaxByte (str_length charSet))))
             (log_request (Math_ceil_div (len * 256)
                (getMaxByte (str_length charSet))) src))).
        destruct (fst (generate_while fuel len charSet _ _)) as [s| |];
          [|assumption|exact I].
        destruct IH as [[Hlen [m Hs]] | Hfail]; [left | right; exact Hfail].
        split; [assumption|].
        exists (Z.to_nat (Math_ceil_div (len * 256)
                  (getMaxByte (str_length charSet))) + m)%nat.
        simpl in Hs.
        rewrite Hs, window_split, sample_app, append_assoc. f_equal.
        rewrite (str_take_append _ (sample _ _ _)). f_equal. f_equal.
        rewrite str_length_append. unfold str_length. lia.
    + rewrite generate_while_exit by assumption. simpl. left.
      split; [assumption|]. exists 0%nat.
      simpl. now rewrite str_take_nil, append_nil_r.
Qed.

(** X6: whatever the byte source does, the blocking [generate] never
    throws, and for a requested length that is not negative what it returns
    is all or nothing: a string of exactly the requested length made of
    characters of the resolved set, or the text of the error of a request
    that failed. *)
Theorem generate_all_or_nothing (fuel : nat)
    (options : option RandomStringOptions.t) (src : ByteSource) :
  0 <= requested_length options ->
  match fst (generate fuel options src) with
  | Returns s =>
      (str_length s = requested_length options
       /\ forall c, In c (chars s) -> In c (chars (resolved_alphabet options)))
      \/ (exists r e, failure src r = Some e /\ s = error_text e)
  | Throws _ => False
  | Diverges => True
  end.
Proof.
  intros HL. rewrite generate_unfold.
  pose proof (generate_while_all_or_nothing (requested_length options)
                (resolved_alphabet options) fuel "" src) as H.
  destruct (fst (generate_while fuel _ _ "" src)) as [s| |]; auto.
  destruct H as [[Hlen [m Hs]] | Hfail]; [left | right; exact Hfail].
  simpl in Hs. change (str_length "") with 0 in Hs.
  rewrite Z.sub_0_r in Hs. split.
  - apply Z.le_antisymm; [|assumption].
    rewrite Hs. unfold str_length. rewrite str_take_length. lia.
  - intros c Hc. rewrite Hs in Hc. eapply sample_in, str_take_in, Hc.
Qed.

Lemma generate_all_or_nothing_witness :
  0 <= requested_length (with_length 2 Numeric)
  /\ fst (generate 5 (with_length 2 Numeric)
            (source_of [xff; xff; x00; x07; x08; x09] (fails_at 1)))
     = Returns (error_text entropy_unavailable)
  /\ ((str_length (error_text entropy_unavailable) = 2
       /\ forall c, In c (chars (error_text entropy_unavailable)) ->
                    In c (chars "0123456789"))
      \/ exists r e,
           failure (source_of [xff; xff; x00; x07; x08; x09] (fails_at 1)) r
           = Some e
           /\ error_text entropy_unavailable = error_text e).
Proof.
  split; [vm_compute; discriminate|]. split; [reflexivity|].
  apply (generate_all_or_nothing 5 (with_length 2 Numeric)
           (source_of [xff; xff; x00; x07; x08; x09] (fails_at 1))).
  vm_compute. discriminate.
Defined.

(** ** More on the sampling loop *)

Lemma generateString_for_suffix (buffer : Buffer)
    (state : GeneratedStringState.t) :
  exists suffix,
    GeneratedStringState.generated (generateString_for buffer state)
    = GeneratedStringState.generated state ++ suffix
    /\ (forall c, In c (chars suffix) ->
                  In c (chars (GeneratedStringState.charSet state)))
    /\ str_length suffix
       <= Z.max 0 (GeneratedStringState.length state
                   - str_length (GeneratedStringState.generated state))
    /\ str_length suffix <= Z.of_nat (List.length buffer).
Proof.
  eexists. split; [apply generateString_for_sample|].
  split; [|split].
  - intros c Hc. eapply sample_in, str_take_in, Hc.
  - unfold str_length. rewrite str_take_length. lia.
  - unfold str_length. rewrite str_take_length.
    pose proof (sample_length_le (GeneratedStringState.charSet state)
      (GeneratedStringState.maxByte state) buffer). lia.
Qed.

(** X7: [generateString] only ever appends to [state.generated]: what it
    appends is made of characters of [state.charSet], is no longer than the
    deficit and no longer than the buffer; the other fields of the state
    are left as they were. *)
Theorem generateString_appends (buffer : Buffer)
    (state : GeneratedStringState.t) :
  exists suffix,
    fst (generateString buffer state)
    = GeneratedStringState.generated state ++ suffix
    /\ GeneratedStringState.generated (snd (generateString buffer state))
       = GeneratedStringState.generated state ++ suffix
    /\ (forall c, In c (chars suffix) ->
                  In c (chars (GeneratedStringState.charSet state)))
    /\ str_length suffix
       <= Z.max 0 (GeneratedStringState.length state
                   - str_length (GeneratedStringState.generated state))
    /\ str_length suffix <= Z.of_nat (List.length buffer)
    /\ GeneratedStringState.charSet (snd (generateString buffer state))
       = GeneratedStringState.charSet state
    /\ GeneratedStringState.length (snd (generateString buffer state))
       = GeneratedStringState.length state
    /\ GeneratedStringState.maxByte (snd (generateString buffer state))
       = GeneratedStringState.maxByte state.
Proof.
  unfold generateString. simpl.
  destruct (generateString_for_fields buffer state) as (Hc & Hl & Hm).
  destruct (generateString_for_suffix buffer state)
    as (suffix & Hs & Hin & Hdef & Hbuf).
  exists suffix. repeat split; assumption.
Qed.

(** ** More on the options and the character sets *)

(** X8: the capitalisation changes the resolved set exactly when the set
    holds letters that the style folds: the sets of digits (Numeric, Binary,
    Octal) are the same in every style, and Hex is the same in Lowercase as
    in Mixed. *)
Theorem getCharacterSet_capitalisation_effect (t : CharacterSetType)
    (c : Capitalisation) :
  getCharacterSet t c = getCharacterSet t Mixed
  <-> (c = Mixed \/ t = Numeric \/ t = Binary \/ t = Octal
       \/ (t = Hex /\ c = Lowercase)).
Proof.
  split.
  - intros H. destruct t, c; try (vm_compute in H; discriminate H); tauto.
  - intros H. destruct t, c; try reflexivity;
      repeat (destruct H as [H | H]; try discriminate H);
      destruct H; discriminate.
Qed.

(** X9: every character of every resolved set is an ASCII digit or an
    ASCII letter. *)
Theorem getCharacterSet_digits_and_letters (t : CharacterSetType)
    (c : Capitalisation) :
  forallb (fun ch => is_digit ch || is_upper ch || is_lower ch)
    (chars (getCharacterSet t c)) = true.
Proof. destruct t, c; reflexivity. Qed.

(** ** More on the callback variant *)

(** The shapes a run of the callback variant can have. *)
Lemma generateStringAsync_shapes (fuel : nat) :
  forall (g : option Z) (state : GeneratedStringState.t) (src : ByteSource),
    let r := fst (generateStringAsync fuel g state src) in
    (g = None /\ calls r = [] /\ ending r = Throws ReferenceError_length)
    \/ (calls r = [] /\ ending r = Diverges)
    \/ (exists e, calls r = [(Some e, None)]
                  /\ ending r = Throws TypeError_undefined_buffer)
    \/ (exists s, calls r = [(None, Some s)] /\ ending r = Returns tt).
Proof.
  induction fuel as [|fuel IH]; intros [g|] state src;
    try (left; repeat split; reflexivity).
  - right. left. split; reflexivity.
  - simpl. unfold randomBytesAsync, randomBytes.
    destruct (failure src (List.length (requested src))) as [e|].
    + right. right. left. exists e. split; reflexivity.
    + unfold generateString. cbv zeta.
      destruct (_ <? g).
      * match goal with
        | |- context [generateStringAsync fuel (Some g) ?st ?sr] =>
            specialize (IH (Some g) st sr);
            destruct (generateStringAsync fuel (Some g) st sr) as [r0 src2]
        end.
        simpl in *. destruct IH as [[H _] | IH]; [discriminate H|].
        right. exact IH.
      * right. right. right. eexists. split; reflexivity.
Qed.

(** X10: where a global [length] exists, in every run of [generateAsync],
    whatever the byte source, the caller's callback is invoked at most
    once, and one of three things happens: no invocation yet, one
    invocation with an error and no string followed by a TypeError, or one
    invocation with a string and no error. *)
Theorem generateAsync_run_shapes (fuel : nat) (g : Z)
    (options : option RandomStringOptions.t) (src : ByteSource) :
  valid_size g ->
  (List.length (calls (fst (generateAsync fuel (Some g) options src))) <= 1)%nat
  /\ ((calls (fst (generateAsync fuel (Some g) options src)) = []
       /\ ending (fst (generateAsync fuel (Some g) options src)) = Diverges)
      \/ (exists e,
            calls (fst (generateAsync fuel (Some g) options src))
            = [(Some e, None)]
            /\ ending (fst (generateAsync fuel (Some g) options src))
               = Throws TypeError_undefined_buffer)
      \/ (exists s,
            calls (fst (generateAsync fuel (Some g) options src))
            = [(None, Some s)]
            /\ ending (fst (generateAsync fuel (Some g) options src))
               = Returns tt)).
Proof.
  intros _.
  unfold generateAsync. destruct (parseOptions options) as [[len t] c].
  match goal with
  | |- context [generateStringAsync fuel (Some g) ?st src] =>
      pose proof (generateStringAsync_shapes fuel (Some g) st src) as H;
      cbv zeta in H;
      destruct (fst (generateStringAsync fuel (Some g) st src)) as [cs e]
  end.
  simpl in *. destruct H as [[H _] | H]; [discriminate H|].
  split; [|exact H].
  destruct H as [(-> & _) | [(e0 & -> & _) | (s & -> & _)]]; simpl; lia.
Qed.

Lemma generateAsync_run_shapes_witness :
  valid_size 2
  /\ fst (generateAsync 5 (Some 2) (with_length 2 Numeric)
            (source_of [xff; xff; x00; x07; x08; x09] never_fails))
     = {| calls := [(None, Some "07")]; ending := Returns tt |}
  /\ Nat.le
       (List.length
          (calls (fst (generateAsync 5 (Some 2) (with_length 2 Numeric)
             (source_of [xff; xff; x00; x07; x08; x09] never_fails)))))
       1.
Proof.
  assert (Hg : valid_size 2) by (unfold valid_size; lia).
  split; [exact Hg|]. split; [reflexivity|].
  apply (generateAsync_run_shapes 5 2 (with_length 2 Numeric)
           (source_of [xff; xff; x00; x07; x08; x09] never_fails) Hg).
Defined.

(** With a global [length], a failed request is the last one a run makes;
    its error is what the callback gets, once, and the run ends in the
    TypeError. *)
Lemma generateStringAsync_failed_request (fuel : nat) (g : Z) :
  forall (state : GeneratedStringState.t) (src : ByteSource) (r : nat)
         (e : Error),
    (List.length (requested src) <= r
     < List.length
         (requested (snd (generateStringAsync fuel (Some g) state src))))%nat ->
    failure src r = Some e ->
    fst (generateStringAsync fuel (Some g) state src)
    = {| calls := [(Some e, None)];
         ending := Throws TypeError_undefined_buffer |}
    /\ List.length
         (requested (snd (generateStringAsync fuel (Some g) state src)))
       = S r.
Proof.
  induction fuel as [|fuel IH]; intros state src r e Hr He.
  - simpl in Hr. lia.
  - revert Hr. simpl. unfold randomBytesAsync, randomBytes.
    destruct (failure src (List.length (requested src))) as [e0|] eqn:F.
    + simpl. rewrite length_app. simpl. intros Hr.
      assert (r = List.length (requested src)) by lia. subst r.
      rewrite F in He. injection He as ->. split; [reflexivity | lia].
    + unfold generateString. cbv zeta.
      destruct (_ <? g).
      * match goal with
        | |- context [generateStringAsync fuel (Some g) ?st ?sr] =>
            specialize (IH st sr r e);
            destruct (generateStringAsync fuel (Some g) st sr) as [r0 src2]
        end.
        simpl in *. rewrite length_app in IH. simpl in IH. intros Hr.
        assert (r <> List.length (requested src)) by congruence.
        destruct IH as [-> Hlast]; [lia | exact He |].
        split; [reflexivity | exact Hlast].
      * simpl. rewrite length_app. simpl. intros Hr.
        assert (r = List.length (requested src)) by lia. subst r.
        congruence.
Qed.

(** X11: where a global [length] exists, a request of [generateAsync] that
    fails is the last request of the run; the callback is invoked exactly
    once, with that error and no string, and the run then ends in the
    TypeError of reading the length of the buffer it did not get. *)
Theorem generateAsync_failed_request (fuel : nat) (g : Z)
    (options : option RandomStringOptions.t) (src : ByteSource)
    (r : nat) (e : Error) :
  valid_size g ->
  (List.length (requested src) <= r
   < List.length
       (requested (snd (generateAsync fuel (Some g) options src))))%nat ->
  failure src r = Some e ->
  fst (generateAsync fuel (Some g) options src)
  = {| calls := [(Some e, None)];
       ending := Throws TypeError_undefined_buffer |}
  /\ List.length (requested (snd (generateAsync fuel (Some g) options src)))
     = S r.
Proof.
  intros _.
  unfold generateAsync. destruct (parseOptions options) as [[len t] c].
  apply generateStringAsync_failed_request.
Qed.

Lemma generateAsync_failed_request_witness :
  valid_size 2
  /\ failure (source_of [xff; xff; x00; x07; x08; x09] (fails_at 1)) 1
  = Some entropy_unavailable
  /\ fst (generateAsync 5 (Some 2) (with_length 2 Numeric)
            (source_of [xff; xff; x00; x07; x08; x09] (fails_at 1)))
     = {| calls := [(Some entropy_unavailable, None)];
          ending := Throws TypeError_undefined_buffer |}
  /\ List.length
       (requested (snd (generateAsync 5 (Some 2) (with_length 2 Numeric)
          (source_of [xff; xff; x00; x07; x08; x09] (fails_at 1)))))
     = 2%nat.
Proof.
  assert (Hg : valid_size 2) by (unfold valid_size; lia).
  split; [exact Hg|]. split; [reflexivity|].
  apply (generateAsync_failed_request 5 2 (with_length 2 Numeric)
           (source_of [xff; xff; x00; x07; x08; x09] (fails_at 1))
           1 entropy_unavailable Hg).
  - vm_compute. lia.
  - reflexivity.
Defined.

(** A string that a run delivers is what the state held, followed by
    characters of the set, no more than were missing; and it is at least as
    long as the global [length]. *)
Lemma generateStringAsync_delivered (fuel : nat) (g : Z) :
  forall (state : GeneratedStringState.t) (src : ByteSource) (s : string),
    In (None, Some s)
       (calls (fst (generateStringAsync fuel (Some g) state src))) ->
    g <= str_length s
    /\ exists suffix,
         s = GeneratedStringState.generated state ++ suffix
         /\ (forall c, In c (chars suffix) ->
                       In c (chars (GeneratedStringState.charSet state)))
         /\ str_length suffix
            <= Z.max 0 (GeneratedStringState.length state
                        - str_length (GeneratedStringState.generated state)).
Proof.
  induction fuel as [|fuel IH]; intros state src s; [simpl; tauto|].
  simpl. unfold randomBytesAsync, randomBytes.
  destruct (failure src (List.length (requested src))) as [e|].
  - simpl. intros [H | []]. discriminate H.
  - unfold generateString. cbv zeta.
    set (buffer := window src (cursor src) (Z.to_nat g)).
    destruct (generateString_for_suffix buffer state)
      as (suf1 & Hgen & Hin1 & Hdef1 & _).
    destruct (generateString_for_fields buffer state) as (Hcs & Hlen & _).
    destruct (Z.ltb_spec
                (str_length
                   (GeneratedStringState.generated
                      (generateString_for buffer state))) g) as [Hlt | Hge].
    + match goal with
      | |- context [generateStringAsync fuel (Some g) ?st ?sr] =>
          specialize (IH st sr s);
          destruct (generateStringAsync fuel (Some g) st sr) as [r0 src2]
      end.
      simpl in *. intros Hs.
      destruct (IH Hs) as (Hg & suf2 & Heq & Hin2 & Hdef2).
      split; [assumption|].
      exists (suf1 ++ suf2). rewrite Heq, Hgen, append_assoc.
      split; [reflexivity|]. split.
      * intros c Hc. rewrite chars_append in Hc.
        apply in_app_or in Hc. destruct Hc as [Hc | Hc]; [auto|].
        rewrite <- Hcs. auto.
      * rewrite Hlen, Hgen in Hdef2.
        rewrite str_length_append in *. lia.
    + simpl. intros [H | []]. injection H as <-.
      split; [lia|]. exists suf1. auto.
Qed.

(** X12: where a global [length] exists, a string that [generateAsync]
    hands to the callback is made of characters of the resolved set, is at
    least as long as the global [length] and no longer than the requested
    length; so no string is ever delivered when the global [length] exceeds
    the requested length. *)
Theorem generateAsync_delivered (fuel : nat) (g : Z)
    (options : option RandomStringOptions.t) (src : ByteSource)
    (s : string) :
  valid_size g ->
  In (None, Some s) (calls (fst (generateAsync fuel (Some g) options src))) ->
  g <= str_length s <= Z.max 0 (requested_length options)
  /\ forall c, In c (chars s) -> In c (chars (resolved_alphabet options)).
Proof.
  unfold generateAsync, requested_length, resolved_alphabet.
  destruct (parseOptions options) as [[len t] c]. intros _ H.
  apply generateStringAsync_delivered in H.
  destruct H as (Hg & suffix & -> & Hin & Hdef). simpl in *.
  change (str_length "") with 0 in Hdef. rewrite Z.sub_0_r in Hdef.
  repeat split; auto.
Qed.

Lemma generateAsync_delivered_witness :
  valid_size 2
  /\ calls (fst (generateAsync 5 (Some 2) (with_length 2 Numeric)
           (source_of [xff; xff; x00; x07; x08; x09] never_fails)))
  = [(None, Some "07")]
  /\ 2 <= str_length "07" <= Z.max 0 2.
Proof.
  assert (Hg : valid_size 2) by (unfold valid_size; lia).
  split; [exact Hg|]. split; [reflexivity|].
  apply (generateAsync_delivered 5 2 (with_length 2 Numeric)
           (source_of [xff; xff; x00; x07; x08; x09] never_fails) "07" Hg).
  left. reflexivity.
Defined.

(** X13: where a global [length] exists, every request that
    [generateAsync] makes is of that many bytes: neither the requested
    length nor the size of the resolved set enters the size of a draw. *)
Theorem generateAsync_draws_by_global_length (fuel : nat) (g : Z)
    (options : option RandomStringOptions.t) (src : ByteSource) :
  valid_size g ->
  exists rounds,
    requested (snd (generateAsync fuel (Some g) options src))
    = (requested src ++ repeat g rounds)%list.
Proof.
  intros _. unfold generateAsync. destruct (parseOptions options) as [[len t] c].
  generalize
    {| GeneratedStringState.generated := "";
       GeneratedStringState.charSet := getCharacterSet t c;
       GeneratedStringState.length := len;
       GeneratedStringState.maxByte :=
         getMaxByte (str_length (getCharacterSet t c)) |}.
  revert src. induction fuel as [|fuel IH]; intros src state.
  - exists 0%nat. simpl. now rewrite app_nil_r.
  - simpl. unfold randomBytesAsync, randomBytes.
    destruct (failure src (List.length (requested src))) as [e|].
    + exists 1%nat. reflexivity.
    + unfold generateString. cbv zeta.
      destruct (_ <? g).
      * match goal with
        | |- context [generateStringAsync fuel (Some g) ?st ?sr] =>
            destruct (IH sr st) as [n Hn];
            destruct (generateStringAsync fuel (Some g) st sr) as [r0 src2]
        end.
        simpl in *. exists (S n). rewrite Hn. simpl.
        now rewrite <- app_assoc.
      * exists 1%nat. reflexivity.
Qed.

Lemma generateAsync_draws_by_global_length_witness :
  valid_size 2
  /\ requested (snd (generateAsync 5 (Some 2) (with_length 2 Numeric)
         (source_of [xff; xff; x00; x07; x08; x09] never_fails)))
     = [2; 2]
  /\ exists rounds,
       requested (snd (generateAsync 5 (Some 2) (with_length 2 Numeric)
         (source_of [xff; xff; x00; x07; x08; x09] never_fails)))
       = ([] ++ repeat 2 rounds)%list.
Proof.
  assert (Hg : valid_size 2) by (unfold valid_size; lia).
  split; [exact Hg|]. split; [reflexivity|].
  apply (generateAsync_draws_by_global_length 5 2 (with_length 2 Numeric)
           (source_of [xff; xff; x00; x07; x08; x09] never_fails) Hg).
Defined.
